(** * javascript-object-validator: a shallow embedding and its properties

    The development follows [src/javascriptObjectValidator.js]: the exported
    [validate] function and its two helpers [doesObjectHaveProperty] and
    [doesObjectHaveAny].  JavaScript values are an inductive type, property
    reads that can fail return a [Completion], and the in-place update of
    the caller's descriptor objects is explicit state passing over a heap of
    descriptors addressed by reference. *)

From Stdlib Require Import ZArith Lia Ascii String Floats.SpecFloat.
From stdpp Require Import base list strings.

#[local] Set Warnings "-register-all".

(** ** Values *)

(** Numbers are IEEE 754 doubles ([spec_float]); objects and arrays carry the
    identity that [===] and [Array.prototype.includes] compare.  An object
    holds its own data properties in insertion order. *)
Inductive JsValue : Type :=
| JsUndefined
| JsNull
| JsBoolean (b : bool)
| JsNumber (x : spec_float)
| JsString (s : string)
| JsObject (id : nat) (properties : list (string * JsValue))
| JsArray (id : nat) (elements : list JsValue).

Definition NaN : JsValue := JsNumber S754_nan.

(** The number with the integer value [z], in binary64. *)
Definition number (z : Z) : JsValue := JsNumber (binary_normalize 53 1024 z 0 false).

(** What the validator reaches of the ECMAScript runtime without defining it:
    the properties a value has besides the own data properties of a plain
    object (the prototype chain, array and string indices, [length]), and
    [ToString] of a value that is not already a string. *)
Class Runtime : Type := {
  builtin_property : JsValue -> string -> JsValue;
  to_string_other : JsValue -> string
}.

Inductive Exception : Type := TypeError.

Inductive Completion (A : Type) : Type :=
| Normal (a : A)
| Throw (e : Exception).
Arguments Normal {A} a.
Arguments Throw {A} e.

(** An abrupt completion skips the rest of the function. *)
#[global] Instance completion_bind : MBind Completion := fun A B k c =>
  match c with
  | Normal a => k a
  | Throw e => Throw e
  end.

(** [x === y] *)
Definition strict_equals (x y : JsValue) : bool :=
  match x, y with
  | JsUndefined, JsUndefined => true
  | JsNull, JsNull => true
  | JsBoolean a, JsBoolean b => Bool.eqb a b
  | JsNumber a, JsNumber b => SFeqb a b
  | JsString a, JsString b => String.eqb a b
  | JsObject i _, JsObject j _ => Nat.eqb i j
  | JsArray i _, JsArray j _ => Nat.eqb i j
  | _, _ => false
  end.

(** SameValueZero, the comparison of [Array.prototype.includes]: as [===]
    except that NaN is the same value as NaN. *)
Definition same_value_zero (x y : JsValue) : bool :=
  match x, y with
  | JsNumber S754_nan, JsNumber S754_nan => true
  | _, _ => strict_equals x y
  end.

(** [arr.includes(v)] *)
Definition includes (arr : list JsValue) (v : JsValue) : bool :=
  existsb (fun element => same_value_zero element v) arr.

(** ToBoolean, the test of [if (v)] and [!v]. *)
Definition to_boolean (v : JsValue) : bool :=
  match v with
  | JsUndefined | JsNull => false
  | JsBoolean b => b
  | JsNumber (S754_zero _) | JsNumber S754_nan => false
  | JsNumber _ => true
  | JsString s => negb (String.eqb s "")
  | JsObject _ _ | JsArray _ _ => true
  end.

(** ToString, as [errorMessage += v] applies it. *)
Definition to_string {runtime : Runtime} (v : JsValue) : string :=
  match v with
  | JsString s => s
  | _ => to_string_other v
  end.

Fixpoint own_property (properties : list (string * JsValue)) (key : string) : option JsValue :=
  match properties with
  | [] => None
  | (k, v) :: rest => if String.eqb k key then Some v else own_property rest key
  end.

(** [v[key]]: a TypeError on undefined and null, the own property of an
    object when it has one, and whatever the runtime supplies otherwise.
    The modelled values hold data properties only: a read never runs an
    accessor or a proxy trap, so on any other value it returns. *)
Definition get_property {runtime : Runtime} (v : JsValue) (key : string) : Completion JsValue :=
  match v with
  | JsUndefined | JsNull => Throw TypeError
  | JsObject _ properties =>
      match own_property properties key with
      | Some x => Normal x
      | None => Normal (builtin_property v key)
      end
  | _ => Normal (builtin_property v key)
  end.

(** ** Strings *)

(** [s.split(sep)] for a one-character separator: never empty, and an empty
    string between two adjacent separators. *)
Fixpoint split_string (sep : ascii) (s : string) : list string :=
  match s with
  | EmptyString => [EmptyString]
  | String c rest =>
      if Ascii.eqb c sep then EmptyString :: split_string sep rest
      else match split_string sep rest with
           | segment :: segments => String c segment :: segments
           | [] => [String c EmptyString]
           end
  end.

(** [v.split(sep)]: only strings have the method among the modelled values. *)
Definition split (v : JsValue) (sep : ascii) : Completion (list string) :=
  match v with
  | JsString s => Normal (split_string sep s)
  | _ => Throw TypeError
  end.

(** White space of [String.prototype.trim] among 8-bit code units:
    TAB, LF, VT, FF, CR, SP and NBSP. *)
Definition is_white_space (c : ascii) : bool :=
  let n := nat_of_ascii c in
  ((9 <=? n) && (n <=? 13) || (n =? 32) || (n =? 160))%nat.

Fixpoint trim_start (s : string) : string :=
  match s with
  | EmptyString => EmptyString
  | String c rest => if is_white_space c then trim_start rest else s
  end.

Fixpoint trim_end (s : string) : string :=
  match s with
  | EmptyString => EmptyString
  | String c rest =>
      match trim_end rest with
      | EmptyString => if is_white_space c then EmptyString else String c EmptyString
      | kept => String c kept
      end
  end.

Definition trim (s : string) : string := trim_end (trim_start s).

(** ** Descriptors *)

(** A property descriptor object.  [required] and [error] are absent
    ([None]) or hold any value; [invalidValues] is, as documented, absent or
    an array (a truthy value without [includes] is not represented), and the
    object is an ordinary one whose [required] can be assigned (not frozen). *)
Record Descriptor : Type := {
  required : option JsValue;
  invalidValues : option (list JsValue);
  error : option JsValue
}.

(** Reading a field of an object: undefined when the field is absent. *)
Definition field (f : option JsValue) : JsValue :=
  match f with
  | Some v => v
  | None => JsUndefined
  end.

(** [Array.isArray(v)] *)
Definition is_array (v : JsValue) : bool :=
  match v with
  | JsArray _ _ => true
  | _ => false
  end.

(** The receiver of [.some(...)] and [.forEach(...)]: only arrays have these
    methods among the modelled values. *)
Definition array_elements (v : JsValue) : Completion (list JsValue) :=
  match v with
  | JsArray _ elements => Normal elements
  | _ => Throw TypeError
  end.

(** ** The heap *)

(** The caller's descriptor objects live in a heap and the descriptor list
    holds references into it, so that two entries, or two calls, can share
    one object.  [next_id] is the identity the next allocated object takes. *)
Record Heap : Type := {
  descriptors : list Descriptor;
  next_id : nat
}.

Inductive Outcome (A : Type) : Type :=
| Returns (a : A) (h : Heap)
| Raises (e : Exception) (h : Heap).
Arguments Returns {A} a h.
Arguments Raises {A} e h.

Definition Eval (A : Type) : Type := Heap -> Outcome A.

#[global] Instance eval_ret : MRet Eval := fun A a h => Returns a h.

#[global] Instance eval_bind : MBind Eval := fun A B k m h =>
  match m h with
  | Returns a h' => k a h'
  | Raises e h' => Raises e h'
  end.

Definition lift {A} (c : Completion A) : Eval A := fun h =>
  match c with
  | Normal a => Returns a h
  | Throw e => Raises e h
  end.

(** Dereferencing an entry of the descriptor list; an entry that is no
    object has no fields to read. *)
Definition load (ref : nat) : Eval Descriptor := fun h =>
  match descriptors h !! ref with
  | Some d => Returns d h
  | None => Raises TypeError h
  end.

Definition store (ref : nat) (d : Descriptor) : Eval unit := fun h =>
  Returns () {| descriptors := <[ref := d]> (descriptors h); next_id := next_id h |}.

Definition fresh : Eval nat := fun h =>
  Returns (next_id h) {| descriptors := descriptors h; next_id := S (next_id h) |}.

Record ValidationResult : Type := {
  valid : bool;
  errors : list JsValue
}.

Definition push (result : ValidationResult) (e : JsValue) : ValidationResult :=
  {| valid := valid result; errors := errors result ++ [e] |}.

(** ** doesObjectHaveProperty *)

Section Validator.
Context {runtime : Runtime}.

(** The body of [splitProperties.every(...)]: the callback assigns [curVal]
    and [containsProperty] and the iteration stops at the first segment for
    which it returns false. *)
Fixpoint every_property (splitProperties : list string) (curVal : JsValue)
    (containsProperty : bool) : Completion (JsValue * bool) :=
  match splitProperties with
  | [] => Normal (curVal, containsProperty)
  | property :: rest =>
      curVal ← get_property curVal property;
      let containsProperty :=
        negb (strict_equals curVal JsUndefined) && negb (strict_equals curVal JsNull) in
      if containsProperty then every_property rest curVal containsProperty
      else Normal (curVal, containsProperty)
  end.

Definition doesObjectHaveProperty (curVal propertyString : JsValue)
    (invalidValues : option (list JsValue)) : Completion bool :=
  splitProperties ← split propertyString ".";
  let containsProperty := true in
  '(curVal, containsProperty) ← every_property splitProperties curVal containsProperty;
  let containsProperty :=
    containsProperty &&
    match invalidValues with
    | None => true
    | Some values => negb (includes values curVal)
    end in
  Normal containsProperty.

(** ** doesObjectHaveAny *)

(** The body of [required.some(...)]: the callback assigns [result] and the
    iteration stops at the first element for which it returns a truthy
    value. *)
Fixpoint some_required (object : JsValue) (invalidValues : option (list JsValue))
    (elements : list JsValue) (result : JsValue) : Completion JsValue :=
  match elements with
  | [] => Normal result
  | requiredProperty :: rest =>
      found ← doesObjectHaveProperty object requiredProperty invalidValues;
      let result := JsBoolean found in
      if to_boolean result then Normal result
      else some_required object invalidValues rest result
  end.

Definition doesObjectHaveAny (object : JsValue) (requiredPropertyDescriptor : Descriptor)
    : Completion JsValue :=
  let result := JsNull in
  elements ← array_elements (field (required requiredPropertyDescriptor));
  some_required object (invalidValues requiredPropertyDescriptor) elements result.

(** ** The default error message *)

(** The body of [required.forEach((requiredProperty, idx, arr) => ...)],
    with [len] standing for [arr.length]. *)
Fixpoint forEach_required (len idx : nat) (elements : list JsValue) (errorMessage : string)
    : string :=
  match elements with
  | [] => errorMessage
  | requiredProperty :: rest =>
      let errorMessage :=
        if ((1 <? len) && (idx =? len - 1))%nat then errorMessage +:+ "or "
        else errorMessage in
      let errorMessage := errorMessage +:+ to_string requiredProperty in
      let errorMessage :=
        if ((2 <? len) && negb (idx =? len - 1))%nat then errorMessage +:+ ", "
        else if (2 <=? len)%nat then errorMessage +:+ " "
        else errorMessage in
      forEach_required len (S idx) rest errorMessage
  end.

Definition default_error_message (elements : list JsValue) : string :=
  let errorMessage := "Object must contain a valid value for " in
  trim (forEach_required (length elements) 0 elements errorMessage).

(** ** validate *)

(** The callback of [propertyDescriptors.some(...)]; the boolean is the
    callback's return value, true when the iteration is to stop. *)
Definition visit_descriptor (object : JsValue) (lazy : bool) (propertyDescriptor : nat)
    (result : ValidationResult) : Eval (bool * ValidationResult) :=
  pd ← load propertyDescriptor;
  pd ← (if negb (is_array (field (required pd))) then
          id ← fresh;
          let pd :=
            {| required := Some (JsArray id [field (required pd)]);
               invalidValues := invalidValues pd;
               error := error pd |} in
          _ ← store propertyDescriptor pd;
          mret pd
        else mret pd);
  has ← lift (doesObjectHaveAny object pd);
  if negb (to_boolean has) then
    let result := {| valid := false; errors := errors result |} in
    result ← (if to_boolean (field (error pd)) then
                mret (push result (field (error pd)))
              else
                elements ← lift (array_elements (field (required pd)));
                id ← fresh;
                mret (push result
                  (JsObject id [("message", JsString (default_error_message elements))])));
    if lazy then mret (true, result) else mret (false, result)
  else mret (false, result).

Fixpoint some_descriptor (object : JsValue) (lazy : bool) (propertyDescriptors : list nat)
    (result : ValidationResult) : Eval ValidationResult :=
  match propertyDescriptors with
  | [] => mret result
  | propertyDescriptor :: rest =>
      '(stop, result) ← visit_descriptor object lazy propertyDescriptor result;
      if (stop : bool) then mret result
      else some_descriptor object lazy rest result
  end.

Definition validate (object : JsValue) (propertyDescriptors : list nat) (lazy : bool)
    : Eval ValidationResult :=
  let result := {| valid := true; errors := [] |} in
  some_descriptor object lazy propertyDescriptors result.

End Validator.

(** ** Vocabulary of the properties *)

(** [v === undefined || v === null] *)
Definition is_nullish (v : JsValue) : bool :=
  strict_equals v JsUndefined || strict_equals v JsNull.

Definition is_nan (v : JsValue) : bool :=
  match v with
  | JsNumber S754_nan => true
  | _ => false
  end.

(** The descriptor as the first statement of the callback leaves it, [id]
    being the identity of the array it allocates. *)
Definition normalize (id : nat) (d : Descriptor) : Descriptor :=
  if is_array (field (required d)) then d
  else {| required := Some (JsArray id [field (required d)]);
          invalidValues := invalidValues d;
          error := error d |}.

(** The heap after that statement. *)
Definition normalize_heap (ref : nat) (h : Heap) (d : Descriptor) : Heap :=
  if is_array (field (required d)) then h
  else {| descriptors := <[ref := normalize (next_id h) d]> (descriptors h);
          next_id := S (next_id h) |}.

(** [d'] is [d], or [d] with its [required], no array yet, wrapped in one. *)
Definition normalizes_to (d d' : Descriptor) : Prop :=
  d' = d \/ exists id, is_array (field (required d)) = false /\ d' = normalize id d.

(** The only change a heap undergoes: some descriptors are normalized. *)
Definition heap_extends (h h' : Heap) : Prop :=
  Forall2 normalizes_to (descriptors h) (descriptors h').

Definition outcome_heap {A} (o : Outcome A) : Heap :=
  match o with
  | Returns _ h => h
  | Raises _ h => h
  end.

(** The object [{message: message}]. *)
Definition message_object (id : nat) (message : string) : JsValue :=
  JsObject id [("message", JsString message)].

Section Vocabulary.
Context {runtime : Runtime}.

(** The path resolver as the specification words it: walk the segments from
    the root, indexing the current value by the next segment; the path is
    found when every value on the way, the last one included, is neither
    undefined nor null. *)
Inductive resolves_to : JsValue -> list string -> JsValue -> Prop :=
| resolves_last root segment v :
    get_property root segment = Normal v ->
    is_nullish v = false ->
    resolves_to root [segment] v
| resolves_step root segment segments middle v :
    get_property root segment = Normal middle ->
    is_nullish middle = false ->
    resolves_to middle segments v ->
    resolves_to root (segment :: segments) v.


(** A descriptor passes: [doesObjectHaveAny] returns a truthy value on it
    once [required] is an array. *)
Definition passes (object : JsValue) (h : Heap) (ref : nat) : Prop :=
  exists d id v,
    descriptors h !! ref = Some d /\
    doesObjectHaveAny object (normalize id d) = Normal v /\
    to_boolean v = true.

End Vocabulary.

(** The join rule of the default message as the specification words it. *)
Fixpoint comma_separated_or (paths : list string) : string :=
  match paths with
  | [] => ""
  | [z] => "or " +:+ z
  | x :: rest => x +:+ ", " +:+ comma_separated_or rest
  end.

Definition joined_paths (paths : list string) : string :=
  match paths with
  | [] => ""
  | [x] => x
  | [x; y] => x +:+ " or " +:+ y
  | _ => comma_separated_or paths
  end.

(** The last character of [s] exists and is no white space. *)
Fixpoint ends_in_non_space (s : string) : bool :=
  match s with
  | EmptyString => false
  | String c EmptyString => negb (is_white_space c)
  | String _ rest => ends_in_non_space rest
  end.




(** ** Vocabulary of the further properties *)

Definition is_string (v : JsValue) : bool :=
  match v with
  | JsString _ => true
  | _ => false
  end.

(** Two error payloads are the same custom value, or two generated objects
    with the same message. *)
Definition same_payload (e e' : JsValue) : Prop :=
  e' = e \/
  exists id id' message, e = message_object id message /\ e' = message_object id' message.

(** The candidates of a descriptor: the elements of [required] once it is an
    array. *)
Definition candidates (d : Descriptor) : Completion (list JsValue) :=
  array_elements (field (required (normalize 0 d))).

(** Two descriptors state the same rule: the same candidates, invalid
    values and error, whether [required] is a bare value or an array and
    whatever the identity of that array. *)
Definition same_rule (d d' : Descriptor) : Prop :=
  candidates d = candidates d' /\
  invalidValues d = invalidValues d' /\
  error d = error d'.

(** Fewer invalid values: [None], or a list included in the other one. *)
Definition fewer_invalid (invalid invalid' : option (list JsValue)) : Prop :=
  match invalid, invalid' with
  | None, _ => True
  | Some values, Some values' => values ⊆ values'
  | Some values, None => values = []
  end.

Section FurtherVocabulary.
Context {runtime : Runtime}.

(** What [doesObjectHaveAny] returns on the descriptor behind a reference. *)
Definition judgement (object : JsValue) (h : Heap) (ref : nat) : Completion JsValue :=
  match descriptors h !! ref with
  | Some d => doesObjectHaveAny object (normalize 0 d)
  | None => Throw TypeError
  end.

(** The descriptor is judged invalid: the judgement is a falsy value. *)
Definition judged_invalid (object : JsValue) (h : Heap) (ref : nat) : bool :=
  match judgement object h ref with
  | Normal v => negb (to_boolean v)
  | Throw _ => false
  end.

(** [e] is the payload a failure of the descriptor behind [ref] appends: its
    error when that is truthy, else an object holding the default message
    for its candidates. *)
Definition payload_of (h : Heap) (ref : nat) (e : JsValue) : Prop :=
  exists d,
    descriptors h !! ref = Some d /\
    if to_boolean (field (error d)) then e = field (error d)
    else exists id elements,
           candidates d = Normal elements /\
           e = message_object id (default_error_message elements).

End FurtherVocabulary.

(** ** The README scenario *)

(** A runtime in which nothing is inherited, for closed runs whose paths name
    own properties only; ToString of a non-string is not reached there. *)
Definition own_properties_runtime : Runtime :=
  {| builtin_property := fun _ _ => JsUndefined;
     to_string_other := fun _ => "" |}.

Definition toValidate : JsValue :=
  JsObject 0
    [("name", JsString "John");
     ("age", number 26);
     ("spouse", JsObject 1 [("name", JsString "Jane"); ("age", NaN)])].

Definition requiredProperties : list Descriptor :=
  [ {| required := Some (JsString "name"); invalidValues := None; error := None |};
    {| required := Some (JsString "age"); invalidValues := Some [NaN]; error := None |};
    {| required := Some (JsString "spouse.name");
       invalidValues := Some [JsString ""];
       error := Some (message_object 2 "spouse is required and must contain a name") |};
    {| required := Some (JsString "spouse.age");
       invalidValues := Some [NaN];
       error := Some (message_object 3 "spouse is required and must contain an age") |};
    {| required := Some (JsArray 4 [JsString "notThere"; JsString "alsoNotThere"]);
       invalidValues := None;
       error := None |} ].

Definition readme_heap : Heap := {| descriptors := requiredProperties; next_id := 5 |}.

(** The empty object literal, and a descriptor with [required] alone. *)
Definition empty_object : JsValue := JsObject 0 [].

Definition descriptor (r : JsValue) : Descriptor :=
  {| required := Some r; invalidValues := None; error := None |}.

(** ** The fixture of the test suite *)

Definition obj : JsValue :=
  JsObject 0
    [("a", JsObject 1
             [("b", JsObject 2 [("c", JsString "Hello"); ("d", JsString "World")]);
              ("f", JsBoolean false);
              ("g", JsString "");
              ("h", JsNull)])].

Definition propertyDescriptors : list Descriptor :=
  [ descriptor (JsString "a");
    descriptor (JsString "a.b");
    descriptor (JsString "a.b.c");
    descriptor (JsString "a.b.d");
    descriptor (JsString "a.f") ].

(** The fixture with more descriptors pushed at its end. *)
Definition fixture_heap (pushed : list Descriptor) : Heap :=
  {| descriptors := propertyDescriptors ++ pushed; next_id := 10 |}.

(** * Properties *)

Section Properties.
Context {runtime : Runtime}.

(** ** Unfolding the callback of validate *)

Lemma visit_descriptor_eq object lazy ref result h :
  visit_descriptor object lazy ref result h =
  match descriptors h !! ref with
  | None => Raises TypeError h
  | Some d =>
      let pd := normalize (next_id h) d in
      let h1 := normalize_heap ref h d in
      match doesObjectHaveAny object pd with
      | Throw e => Raises e h1
      | Normal v =>
          if to_boolean v then Returns (false, result) h1
          else if to_boolean (field (error pd)) then
            Returns (lazy, {| valid := false; errors := errors result ++ [field (error pd)] |}) h1
          else
            match array_elements (field (required pd)) with
            | Throw e => Raises e h1
            | Normal elements =>
                Returns
                  (lazy,
                   {| valid := false;
                      errors := errors result ++
                        [message_object (next_id h1) (default_error_message elements)] |})
                  {| descriptors := descriptors h1; next_id := S (next_id h1) |}
            end
      end
  end.
Proof.
  unfold visit_descriptor, normalize_heap, normalize, load, store, fresh, lift, push,
    message_object, mbind, eval_bind, mret, eval_ret.
  destruct (descriptors h !! ref) as [d|]; [|reflexivity].
  destruct (is_array (field (required d))); cbn [negb];
    (destruct (doesObjectHaveAny object _) as [v|e]; [|reflexivity]);
    (destruct (to_boolean v); cbn [negb]; [reflexivity|]);
    (destruct (to_boolean (field (error _))); [destruct lazy; reflexivity|]);
    (destruct (array_elements _); [destruct lazy; reflexivity|reflexivity]).
Qed.

(** ** Resolving a path *)

Lemma get_property_total v key :
  is_nullish v = false -> exists x, get_property v key = Normal x.
Proof.
  destruct v; try discriminate; intros _; cbn; eauto.
  destruct (own_property properties key); eauto.
Qed.

Lemma get_property_nullish v key :
  is_nullish v = true -> get_property v key = Throw TypeError.
Proof. destruct v; try discriminate; reflexivity. Qed.

Lemma split_string_nonempty sep s : split_string sep s <> [].
Proof.
  destruct s as [|c s]; cbn; [discriminate|].
  destruct (Ascii.eqb c sep); [discriminate|].
  destruct (split_string sep s); discriminate.
Qed.

Lemma every_property_cons segment rest root containsProperty :
  every_property (segment :: rest) root containsProperty =
  match get_property root segment with
  | Normal x => if is_nullish x then Normal (x, false) else every_property rest x true
  | Throw e => Throw e
  end.
Proof.
  cbn [every_property]. unfold mbind, completion_bind.
  destruct (get_property root segment) as [x|e]; [|reflexivity].
  replace (negb (strict_equals x JsUndefined) && negb (strict_equals x JsNull))
    with (negb (is_nullish x)) by (unfold is_nullish; apply negb_orb).
  destruct (is_nullish x); reflexivity.
Qed.


Lemma resolves_to_every_property root segments v :
  resolves_to root segments v ->
  forall containsProperty,
    every_property segments root containsProperty = Normal (v, true).
Proof.
  induction 1 as [root segment v Hget Hv|root segment segments middle v Hget Hmid _ IH];
    intros containsProperty; rewrite every_property_cons, Hget.
  - rewrite Hv. reflexivity.
  - rewrite Hmid. apply IH.
Qed.

Lemma every_property_resolves_to segments root containsProperty v :
  segments <> [] ->
  every_property segments root containsProperty = Normal (v, true) ->
  resolves_to root segments v.
Proof.
  revert root containsProperty.
  induction segments as [|segment rest IH]; intros root containsProperty Hne; [done|].
  rewrite every_property_cons.
  destruct (get_property root segment) as [x|e] eqn:Hget; [|discriminate].
  destruct (is_nullish x) eqn:Hx; [discriminate|].
  destruct rest as [|next rest].
  - cbn. intros [= <-]. by apply resolves_last.
  - intros Hrest. eapply resolves_step; eauto.
Qed.


Lemma doesObjectHaveProperty_eq object path invalid :
  doesObjectHaveProperty object (JsString path) invalid =
  match every_property (split_string "." path) object true with
  | Normal (v, found) =>
      Normal (found && match invalid with
                       | None => true
                       | Some values => negb (includes values v)
                       end)
  | Throw e => Throw e
  end.
Proof.
  unfold doesObjectHaveProperty, split, mbind, completion_bind.
  destruct (every_property _ _ _) as [[v found]|e]; reflexivity.
Qed.



(** The root itself is indexed before anything is tested. *)
Lemma doesObjectHaveProperty_nullish_root object path invalid :
  is_nullish object = true ->
  doesObjectHaveProperty object (JsString path) invalid = Throw TypeError.
Proof.
  intros Hobject. rewrite doesObjectHaveProperty_eq.
  pose proof (split_string_nonempty "." path) as Hsegments.
  destruct (split_string "." path) as [|segment rest]; [done|].
  by rewrite every_property_cons, get_property_nullish.
Qed.

(** ** One of several candidates *)

Lemma some_required_cons object invalid requiredProperty rest result :
  some_required object invalid (requiredProperty :: rest) result =
  match doesObjectHaveProperty object requiredProperty invalid with
  | Normal found =>
      if found then Normal (JsBoolean true)
      else some_required object invalid rest (JsBoolean false)
  | Throw e => Throw e
  end.
Proof.
  cbn [some_required]. unfold mbind, completion_bind.
  destruct (doesObjectHaveProperty _ _ _) as [[]|]; reflexivity.
Qed.

Lemma doesObjectHaveAny_array object d id elements :
  required d = Some (JsArray id elements) ->
  doesObjectHaveAny object d = some_required object (invalidValues d) elements JsNull.
Proof. unfold doesObjectHaveAny. by intros ->. Qed.



(** ** Membership in the invalid values *)

Lemma same_value_zero_NaN v : same_value_zero NaN v = is_nan v.
Proof. by destruct v as [| | |[]| | |]. Qed.

Lemma same_value_zero_exact element v :
  is_nan v = false -> same_value_zero element v = strict_equals element v.
Proof.
  destruct element as [| | |[]| | |], v as [| | |[]| | |]; done.
Qed.

Lemma includes_NaN values : NaN ∈ values -> includes values NaN = true.
Proof.
  intros Hin. apply existsb_exists. exists NaN.
  split; [by apply list_elem_of_In|reflexivity].
Qed.

(** ** Trimming and the default message *)

Lemma append_cons c (s t : string) : String c s +:+ t = String c (s +:+ t).
Proof. reflexivity. Qed.

Lemma append_assoc (s t u : string) : (s +:+ t) +:+ u = s +:+ t +:+ u.
Proof.
  induction s as [|c s IH]; [reflexivity|].
  by rewrite !append_cons, IH.
Qed.

Lemma ends_in_non_space_nonempty s : ends_in_non_space s = true -> s <> "".
Proof. by destruct s. Qed.

Lemma ends_in_non_space_append s t :
  ends_in_non_space t = true -> ends_in_non_space (s +:+ t) = true.
Proof.
  intros Ht. induction s as [|c s IH]; [exact Ht|].
  rewrite append_cons. cbn [ends_in_non_space].
  destruct (s +:+ t) eqn:Hrest; [by destruct (ends_in_non_space_nonempty _ IH)|exact IH].
Qed.

Lemma trim_end_cons c rest :
  trim_end (String c rest) =
  match trim_end rest with
  | EmptyString => if is_white_space c then EmptyString else String c EmptyString
  | kept => String c kept
  end.
Proof. reflexivity. Qed.

Lemma trim_end_non_space s : ends_in_non_space s = true -> trim_end s = s.
Proof.
  induction s as [|c s IH]; [discriminate|].
  destruct s as [|c' s].
  - cbn. by intros ->%negb_true_iff.
  - intros Hs. rewrite trim_end_cons, (IH Hs). reflexivity.
Qed.

Lemma trim_end_space s : trim_end (s +:+ " ") = trim_end s.
Proof.
  induction s as [|c s IH]; [reflexivity|].
  by rewrite append_cons, !trim_end_cons, IH.
Qed.

Lemma trim_start_message body :
  trim_start ("Object must contain a valid value for " +:+ body) =
  "Object must contain a valid value for " +:+ body.
Proof. reflexivity. Qed.

Lemma trim_message body :
  ends_in_non_space body = true ->
  trim ("Object must contain a valid value for " +:+ body) =
  "Object must contain a valid value for " +:+ body.
Proof.
  intros Hbody. unfold trim. rewrite trim_start_message.
  by apply trim_end_non_space, ends_in_non_space_append.
Qed.

Lemma trim_message_space body :
  ends_in_non_space body = true ->
  trim ("Object must contain a valid value for " +:+ body +:+ " ") =
  "Object must contain a valid value for " +:+ body.
Proof.
  intros Hbody. unfold trim. rewrite trim_start_message, <- append_assoc, trim_end_space.
  by apply trim_end_non_space, ends_in_non_space_append.
Qed.

Lemma forEach_required_many len idx paths errorMessage :
  3 <= len ->
  paths <> [] ->
  idx + length paths = len ->
  forEach_required len idx (JsString <$> paths) errorMessage =
  errorMessage +:+ comma_separated_or paths +:+ " ".
Proof.
  intros Hlen. revert idx errorMessage.
  induction paths as [|x rest IH]; intros idx errorMessage Hne Hidx; [done|].
  cbn [fmap list_fmap forEach_required to_string].
  destruct rest as [|y rest].
  - cbn in Hidx. cbn [list_fmap forEach_required comma_separated_or].
    replace (idx =? len - 1)%nat with true by (symmetry; apply Nat.eqb_eq; lia).
    replace (1 <? len)%nat with true by (symmetry; apply Nat.ltb_lt; lia).
    replace (2 <? len)%nat with true by (symmetry; apply Nat.ltb_lt; lia).
    replace (2 <=? len)%nat with true by (symmetry; apply Nat.leb_le; lia).
    cbn [andb negb]. by rewrite !append_assoc.
  - cbn [length] in Hidx.
    replace (idx =? len - 1)%nat with false by (symmetry; apply Nat.eqb_neq; lia).
    replace (2 <? len)%nat with true by (symmetry; apply Nat.ltb_lt; lia).
    rewrite andb_false_r. cbn [andb negb].
    change (list_fmap _ _ JsString (y :: rest)) with (JsString <$> y :: rest).
    rewrite (IH (S idx)); [|done|cbn [length]; lia].
    cbn [comma_separated_or]. by rewrite !append_assoc.
Qed.

Lemma ends_in_non_space_comma_separated_or paths z :
  last paths = Some z -> ends_in_non_space z = true ->
  ends_in_non_space (comma_separated_or paths) = true.
Proof.
  intros Hlast Hz. induction paths as [|x rest IH]; [done|].
  destruct rest as [|y rest].
  - cbn in Hlast. injection Hlast as ->. cbn [comma_separated_or].
    by apply ends_in_non_space_append.
  - cbn [comma_separated_or]. apply ends_in_non_space_append, ends_in_non_space_append, IH.
    exact Hlast.
Qed.

Lemma default_error_message_joined paths z :
  last paths = Some z ->
  ends_in_non_space z = true ->
  default_error_message (JsString <$> paths) =
  "Object must contain a valid value for " +:+ joined_paths paths.
Proof.
  intros Hlast Hz. unfold default_error_message. rewrite length_fmap.
  destruct paths as [|x [|y [|w rest]]]; [done| | |].
  - cbn in Hlast. injection Hlast as ->. cbn [length fmap list_fmap forEach_required].
    cbn [Nat.ltb Nat.leb Nat.eqb Nat.sub andb negb to_string joined_paths].
    by apply trim_message.
  - cbn in Hlast. injection Hlast as ->. cbn [length fmap list_fmap forEach_required].
    cbn [Nat.ltb Nat.leb Nat.eqb Nat.sub andb negb to_string joined_paths].
    rewrite !append_assoc.
    change (" " +:+ "or " +:+ z +:+ " ") with (" or " +:+ z +:+ " ").
    rewrite <- (append_assoc " or " z " "), <- (append_assoc x).
    apply trim_message_space.
    by apply ends_in_non_space_append, ends_in_non_space_append.
  - rewrite forEach_required_many; [|cbn [length]; lia|done|reflexivity].
    change (joined_paths (x :: y :: w :: rest)) with (comma_separated_or (x :: y :: w :: rest)).
    apply trim_message_space. by eapply ends_in_non_space_comma_separated_or.
Qed.

(** ** Normalization and the heap *)

Lemma normalize_array id d :
  is_array (field (required d)) = true -> normalize id d = d.
Proof. unfold normalize. by intros ->. Qed.

Lemma normalize_is_array id d : is_array (field (required (normalize id d))) = true.
Proof. unfold normalize. by destruct (is_array (field (required d))) eqn:Harray. Qed.

Lemma normalize_idempotent id id' d : normalize id' (normalize id d) = normalize id d.
Proof. apply normalize_array, normalize_is_array. Qed.

Lemma doesObjectHaveAny_normalize object d id id' :
  doesObjectHaveAny object (normalize id d) = doesObjectHaveAny object (normalize id' d).
Proof. unfold normalize. by destruct (is_array (field (required d))). Qed.

Lemma normalizes_to_judgement object d d' id id' :
  normalizes_to d d' ->
  doesObjectHaveAny object (normalize id' d') = doesObjectHaveAny object (normalize id d).
Proof.
  intros [->|(id0 & _ & ->)]; [apply doesObjectHaveAny_normalize|].
  rewrite normalize_idempotent. apply doesObjectHaveAny_normalize.
Qed.

#[local] Instance normalizes_to_reflexive : Reflexive normalizes_to.
Proof. intros d. by left. Qed.

#[local] Instance normalizes_to_transitive : Transitive normalizes_to.
Proof.
  intros d1 d2 d3 [->|(id & Harray & ->)] H23; [exact H23|].
  destruct H23 as [->|(id' & Harray' & _)]; [right; eauto|].
  by rewrite normalize_is_array in Harray'.
Qed.

#[local] Instance heap_extends_reflexive : Reflexive heap_extends.
Proof. intros h. unfold heap_extends. reflexivity. Qed.

#[local] Instance heap_extends_transitive : Transitive heap_extends.
Proof. intros h1 h2 h3. unfold heap_extends. apply transitivity. Qed.

Lemma normalize_heap_extends ref h d :
  descriptors h !! ref = Some d -> heap_extends h (normalize_heap ref h d).
Proof.
  intros Hd. unfold heap_extends, normalize_heap.
  destruct (is_array (field (required d))) eqn:Harray; [reflexivity|].
  cbn [descriptors]. rewrite <- (list_insert_id (descriptors h) ref d Hd) at 1.
  apply Forall2_insert; [reflexivity|]. right. eauto.
Qed.

Lemma normalize_heap_lookup ref h d :
  descriptors h !! ref = Some d ->
  descriptors (normalize_heap ref h d) !! ref = Some (normalize (next_id h) d).
Proof.
  intros Hd. unfold normalize_heap, normalize.
  destruct (is_array (field (required d))); [exact Hd|].
  cbn [descriptors]. apply list_lookup_insert_eq. by eapply lookup_lt_Some.
Qed.

Lemma heap_extends_lookup h h' ref d :
  heap_extends h h' ->
  descriptors h !! ref = Some d ->
  exists d', descriptors h' !! ref = Some d' /\ normalizes_to d d'.
Proof. intros Hext Hd. by eapply Forall2_lookup_l. Qed.

Lemma heap_extends_lookup_back h h' ref d' :
  heap_extends h h' ->
  descriptors h' !! ref = Some d' ->
  exists d, descriptors h !! ref = Some d /\ normalizes_to d d'.
Proof. intros Hext Hd. by eapply Forall2_lookup_r. Qed.

(** ** The iteration over the descriptors *)

Lemma some_descriptor_cons object lazy ref rest result h :
  some_descriptor object lazy (ref :: rest) result h =
  match visit_descriptor object lazy ref result h with
  | Returns (stop, result') h' =>
      if stop then Returns result' h' else some_descriptor object lazy rest result' h'
  | Raises e h' => Raises e h'
  end.
Proof.
  cbn [some_descriptor]. unfold mbind, eval_bind.
  destruct (visit_descriptor object lazy ref result h) as [[[] result'] h'|e h'];
    reflexivity.
Qed.

Lemma validate_single object lazy ref h :
  validate object [ref] lazy h =
  match visit_descriptor object lazy ref {| valid := true; errors := [] |} h with
  | Returns (_, result) h' => Returns result h'
  | Raises e h' => Raises e h'
  end.
Proof.
  unfold validate. rewrite some_descriptor_cons.
  destruct (visit_descriptor _ _ _ _ _) as [[[] result] h'|e h']; reflexivity.
Qed.

Lemma visit_descriptor_extends object lazy ref result h :
  heap_extends h (outcome_heap (visit_descriptor object lazy ref result h)).
Proof.
  rewrite visit_descriptor_eq.
  destruct (descriptors h !! ref) as [d|] eqn:Hd; [|reflexivity]. cbv zeta.
  pose proof (normalize_heap_extends ref h d Hd) as Hext.
  destruct (doesObjectHaveAny _ _) as [v|e]; [|exact Hext].
  destruct (to_boolean v); [exact Hext|].
  destruct (to_boolean (field (error _))); [exact Hext|].
  destruct (array_elements _); exact Hext.
Qed.

Lemma some_descriptor_extends object lazy refs result h :
  heap_extends h (outcome_heap (some_descriptor object lazy refs result h)).
Proof.
  revert result h. induction refs as [|ref rest IH]; intros result h; [reflexivity|].
  rewrite some_descriptor_cons.
  pose proof (visit_descriptor_extends object lazy ref result h) as Hvisit.
  destruct (visit_descriptor _ _ _ _ _) as [[[] result'] h'|e h']; try exact Hvisit.
  etransitivity; [exact Hvisit|apply IH].
Qed.

(** What a returning visit did. *)
Lemma visit_descriptor_returns object lazy ref result h stop result' h' :
  visit_descriptor object lazy ref result h = Returns (stop, result') h' ->
  exists d v,
    descriptors h !! ref = Some d /\
    doesObjectHaveAny object (normalize (next_id h) d) = Normal v /\
    descriptors h' !! ref = Some (normalize (next_id h) d) /\
    (to_boolean v = true /\ stop = false /\ result' = result \/
     to_boolean v = false /\ stop = lazy /\ valid result' = false /\
       exists e, errors result' = errors result ++ [e]).
Proof.
  rewrite visit_descriptor_eq.
  destruct (descriptors h !! ref) as [d|] eqn:Hd; [|discriminate]. cbv zeta.
  pose proof (normalize_heap_lookup ref h d Hd) as Hlookup.
  destruct (doesObjectHaveAny _ _) as [v|e] eqn:Hany; [|discriminate].
  destruct (to_boolean v) eqn:Hv.
  { intros [= <- <- <-]. exists d, v. eauto 10. }
  destruct (to_boolean (field (error _))).
  { intros [= <- <- <-]. exists d, v. split_and!; eauto 10. }
  destruct (array_elements _); [|discriminate].
  intros [= <- <- <-]. exists d, v. split_and!; eauto 10.
Qed.

Lemma passes_extends object h h' ref :
  heap_extends h h' -> passes object h' ref <-> passes object h ref.
Proof.
  intros Hext. unfold passes. split.
  - intros (d' & id & v & Hd' & Hany & Hv).
    destruct (heap_extends_lookup_back _ _ _ _ Hext Hd') as (d & Hd & Hnorm).
    exists d, id, v. by rewrite <- (normalizes_to_judgement object d d' id id Hnorm).
  - intros (d & id & v & Hd & Hany & Hv).
    destruct (heap_extends_lookup _ _ _ _ Hext Hd) as (d' & Hd' & Hnorm).
    exists d', id, v. by rewrite (normalizes_to_judgement object d d' id id Hnorm).
Qed.

Lemma passes_judgement object h ref d id v :
  passes object h ref ->
  descriptors h !! ref = Some d ->
  doesObjectHaveAny object (normalize id d) = Normal v ->
  to_boolean v = true.
Proof.
  intros (d' & id' & v' & Hd' & Hany' & Hv') Hd Hany.
  rewrite (doesObjectHaveAny_normalize object d id id') in Hany. congruence.
Qed.

(** ** Well-formed descriptors *)





Lemma array_elements_normalize id d :
  exists elements, array_elements (field (required (normalize id d))) = Normal elements.
Proof.
  pose proof (normalize_is_array id d) as Harray.
  destruct (field (required (normalize id d))); try discriminate. cbn. eauto.
Qed.




(** ** Lazy and eager iteration *)

(** A visit raises, passes, or fails with one more error; [lazy] decides
    nothing but whether the iteration stops after a failure. *)
Lemma visit_descriptor_cases object ref result h :
  (exists e h', forall lazy, visit_descriptor object lazy ref result h = Raises e h') \/
  (exists h',
     heap_extends h h' /\ passes object h ref /\
     forall lazy, visit_descriptor object lazy ref result h = Returns (false, result) h') \/
  (exists e h',
     heap_extends h h' /\ ~ passes object h ref /\
     forall lazy,
       visit_descriptor object lazy ref result h =
       Returns (lazy, {| valid := false; errors := errors result ++ [e] |}) h').
Proof.
  destruct (descriptors h !! ref) as [d|] eqn:Hd.
  2: { left. exists TypeError, h. intros lazy. by rewrite visit_descriptor_eq, Hd. }
  pose proof (normalize_heap_extends ref h d Hd) as Hext.
  destruct (doesObjectHaveAny object (normalize (next_id h) d)) as [v|e] eqn:Hany.
  2: { left. exists e, (normalize_heap ref h d). intros lazy.
       by rewrite visit_descriptor_eq, Hd; cbv zeta; rewrite Hany. }
  destruct (to_boolean v) eqn:Hv.
  { right. left. exists (normalize_heap ref h d). split; [exact Hext|]. split.
    - by exists d, (next_id h), v.
    - intros lazy. by rewrite visit_descriptor_eq, Hd; cbv zeta; rewrite Hany, Hv. }
  assert (~ passes object h ref) as Hfails.
  { intros Hpass. pose proof (passes_judgement _ _ _ _ _ _ Hpass Hd Hany). congruence. }
  destruct (to_boolean (field (error (normalize (next_id h) d)))) eqn:Hcustom.
  { right. right. eexists _, (normalize_heap ref h d). split; [exact Hext|].
    split; [exact Hfails|]. intros lazy.
    by rewrite visit_descriptor_eq, Hd; cbv zeta; rewrite Hany, Hv, Hcustom. }
  destruct (array_elements_normalize (next_id h) d) as [elements Helements].
  right. right. eexists _, _. split; [|split; [exact Hfails|]].
  2: { intros lazy.
       by rewrite visit_descriptor_eq, Hd; cbv zeta; rewrite Hany, Hv, Hcustom, Helements. }
  exact Hext.
Qed.

(** While nothing stops the iteration, a list is visited as its two parts
    in turn. *)
Lemma some_descriptor_reach object lazy before rest result h :
  lazy = false \/ Forall (passes object h) before ->
  (exists e h', some_descriptor object lazy (before ++ rest) result h = Raises e h') \/
  (exists result' h',
     heap_extends h h' /\
     some_descriptor object lazy (before ++ rest) result h =
     some_descriptor object lazy rest result' h').
Proof.
  revert result h. induction before as [|ref before IH]; intros result h Hreach.
  { right. by exists result, h. }
  cbn [app]. rewrite some_descriptor_cons.
  assert (forall h', heap_extends h h' ->
            lazy = false \/ Forall (passes object h') before) as Hnext.
  { intros h' Hext. destruct Hreach as [->|Hpasses]; [by left|]. right.
    apply Forall_cons in Hpasses as [_ Hpasses].
    eapply Forall_impl; [exact Hpasses|]. intros r Hr. by apply (passes_extends object h h'). }
  destruct (visit_descriptor_cases object ref result h)
    as [(e & h' & ->)|[(h' & Hext & _ & ->)|(e & h' & Hext & Hfails & ->)]].
  - left. eauto.
  - destruct (IH result h' (Hnext h' Hext)) as [?|(result' & h'' & Hext' & ->)]; [by left|].
    right. exists result', h''. split; [by etransitivity|reflexivity].
  - destruct Hreach as [->|Hpasses].
    2: { apply Forall_cons in Hpasses as [Hpass _]. by destruct Hfails. }
    destruct (IH {| valid := false; errors := errors result ++ [e] |} h' (Hnext h' Hext))
      as [?|(result' & h'' & Hext' & ->)]; [by left|].
    right. exists result', h''. split; [by etransitivity|reflexivity].
Qed.

Lemma lazy_at_most_one_error object refs result h rl hl :
  some_descriptor object true refs result h = Returns rl hl ->
  exists new, errors rl = errors result ++ new /\ length new <= 1.
Proof.
  revert result h. induction refs as [|ref rest IH]; intros result h.
  { cbn. intros [= <- <-]. exists []. split; [by rewrite app_nil_r|cbn; lia]. }
  rewrite some_descriptor_cons.
  destruct (visit_descriptor_cases object ref result h)
    as [(e & h' & ->)|[(h' & _ & _ & ->)|(e & h' & _ & _ & ->)]].
  - discriminate.
  - apply IH.
  - intros [= <- <-]. exists [e]. split; [reflexivity|cbn; lia].
Qed.

Lemma lazy_stops_at_first_failure object refs result h r h' :
  some_descriptor object false refs result h = Returns r h' ->
  exists new rl hl,
    errors r = errors result ++ new /\
    valid r = (if new is [] then valid result else false) /\
    some_descriptor object true refs result h = Returns rl hl /\
    errors rl = errors result ++ take 1 new /\
    valid rl = valid r /\
    (new = [] <-> Forall (passes object h) refs).
Proof.
  revert result h. induction refs as [|ref rest IH]; intros result h.
  { cbn. intros [= <- <-]. exists [], result, h. cbn [take]. rewrite app_nil_r.
    split_and!; done. }
  rewrite !some_descriptor_cons.
  destruct (visit_descriptor_cases object ref result h)
    as [(e & h1 & Hvisit)|[(h1 & Hext & Hpass & Hvisit)|(e & h1 & Hext & Hfails & Hvisit)]];
    rewrite !Hvisit.
  - discriminate.
  - intros Hrest.
    destruct (IH _ _ Hrest) as (new & rl & hl & Herrors & Hvalid & Hlazy & Hrl & Hflag & Hall).
    exists new, rl, hl. split_and!; try done.
    rewrite Hall, Forall_cons.
    assert (Forall (passes object h1) rest <-> Forall (passes object h) rest) as ->; [|tauto].
    apply Forall_iff. intros r0. by apply passes_extends.
  - intros Hrest.
    destruct (IH _ _ Hrest) as (new & rl & hl & Herrors & Hvalid & _).
    cbn [errors valid] in Herrors, Hvalid.
    eexists (e :: new), _, _. split_and!; [| |reflexivity| | |].
    + by rewrite Herrors, <- app_assoc.
    + rewrite Hvalid. by destruct new.
    + reflexivity.
    + cbn [valid]. rewrite Hvalid. by destruct new.
    + split; [discriminate|]. intros [Hpass _]%Forall_cons. by destruct Hfails.
Qed.

Lemma absent_required_throws object id d :
  required d = None -> doesObjectHaveAny object (normalize id d) = Throw TypeError.
Proof. unfold normalize. by intros ->. Qed.

Lemma normalizes_to_array d d' :
  normalizes_to d d' -> is_array (field (required d)) = true -> d' = d.
Proof. intros [->|(id & Harray & _)] Hd; [done|congruence]. Qed.

Lemma normalizes_to_normalize d d' id :
  normalizes_to d d' -> exists id', normalize id d' = normalize id' d.
Proof.
  intros [->|(id0 & _ & ->)]; [by exists id|].
  exists id0. apply normalize_idempotent.
Qed.

(** C1. README scenario: on the object {name:'John', age:26, spouse:{name:'Jane',
    age:NaN}} and the five descriptors of the README, validate returns
    valid:false with the errors, in order, the custom payload of the
    'spouse.age' descriptor and the generated message for notThere or
    alsoNotThere; with lazy=true only the first of the two. *)
Theorem readme_scenario :
  builtin_property toValidate "notThere" = JsUndefined ->
  builtin_property toValidate "alsoNotThere" = JsUndefined ->
  (exists h',
     validate toValidate [0; 1; 2; 3; 4] false readme_heap =
     Returns
       {| valid := false;
          errors :=
            [ message_object 3 "spouse is required and must contain an age";
              message_object 9
                "Object must contain a valid value for notThere or alsoNotThere" ] |}
       h') /\
  (exists h',
     validate toValidate [0; 1; 2; 3; 4] true readme_heap =
     Returns
       {| valid := false;
          errors := [ message_object 3 "spouse is required and must contain an age" ] |}
       h').
Proof.
  intros Hfirst Hsecond.
  vm_compute in Hfirst, Hsecond.
  split; eexists; vm_compute; rewrite ?Hfirst; vm_compute; rewrite ?Hsecond; vm_compute;
    reflexivity.
Qed.


(** C4, as amended.  With NaN among the invalid values, a path whose
    resolved value is NaN is judged invalid; for every other value
    membership is exact equality; so, on every object other than undefined
    and null (a primitive, or an object or array of data properties),
    {required:'age', invalidValues:[NaN]} fails exactly when the resolved
    age is NaN or missing. *)
Theorem NaN_is_matched_by_includes :
  (forall object path values,
     NaN ∈ values ->
     resolves_to object (split_string "." path) NaN ->
     doesObjectHaveProperty object (JsString path) (Some values) = Normal false) /\
  (forall values v,
     is_nan v = false ->
     includes values v = existsb (fun element => strict_equals element v) values) /\
  (forall object custom,
     is_nullish object = false ->
     exists age,
       get_property object "age" = Normal age /\
       (forall id,
          doesObjectHaveAny object
            {| required := Some (JsArray id [JsString "age"]);
               invalidValues := Some [NaN]; error := custom |} =
          Normal (JsBoolean (negb (is_nan age || is_nullish age)))) /\
       (forall lazy ref h,
          descriptors h !! ref =
            Some {| required := Some (JsString "age");
                    invalidValues := Some [NaN]; error := custom |} ->
          exists result h',
            validate object [ref] lazy h = Returns result h' /\
            valid result = negb (is_nan age || is_nullish age))).
Proof.
  split; [|split].
  - intros object path values Hin Hresolves.
    rewrite doesObjectHaveProperty_eq, (resolves_to_every_property _ _ _ Hresolves).
    by rewrite includes_NaN.
  - intros values v Hv. unfold includes.
    induction values as [|element values IH]; [reflexivity|].
    cbn [existsb]. by rewrite IH, same_value_zero_exact.
  - intros object custom Hobject.
    destruct (get_property_total object "age" Hobject) as [age Hage].
    exists age. split; [exact Hage|].
    assert (forall id,
              doesObjectHaveAny object
                {| required := Some (JsArray id [JsString "age"]);
                   invalidValues := Some [NaN]; error := custom |} =
              Normal (JsBoolean (negb (is_nan age || is_nullish age)))) as Hany.
    { intros id. erewrite doesObjectHaveAny_array by reflexivity. cbn [invalidValues].
      rewrite some_required_cons, doesObjectHaveProperty_eq.
      change (split_string "." "age") with ["age"].
      rewrite every_property_cons, Hage.
      destruct (is_nullish age) eqn:Hnullish.
      - cbn. by rewrite orb_true_r.
      - cbn -[same_value_zero is_nan]. rewrite same_value_zero_NaN, !orb_false_r.
        by destruct (is_nan age). }
    split; [exact Hany|].
    intros lazy ref h Hd. rewrite validate_single, visit_descriptor_eq, Hd. cbv zeta.
    change (normalize (next_id h) _)
      with {| required := Some (JsArray (next_id h) [JsString "age"]);
              invalidValues := Some [NaN]; error := custom |}.
    rewrite Hany. cbn [to_boolean field required error array_elements].
    destruct (negb (is_nan age || is_nullish age)); [by eexists _, _|].
    destruct (to_boolean _); by eexists _, _.
Qed.


(** C10. For every object, a descriptor whose required field is the empty
    list is judged invalid, and when it has no custom error the payload
    appended is {message: "Object must contain a valid value for"}, with no
    path name and no trailing space. *)
Theorem empty_required_list object lazy ref h d id :
  descriptors h !! ref = Some d ->
  required d = Some (JsArray id []) ->
  doesObjectHaveAny object d = Normal JsNull /\
  exists e h',
    validate object [ref] lazy h = Returns {| valid := false; errors := [e] |} h' /\
    (error d = None ->
     e = message_object (next_id h) "Object must contain a valid value for").
Proof.
  intros Hd Hrequired.
  assert (doesObjectHaveAny object d = Normal JsNull) as Hany
    by (by erewrite doesObjectHaveAny_array by exact Hrequired).
  split; [exact Hany|].
  rewrite validate_single, visit_descriptor_eq, Hd. cbv zeta.
  rewrite normalize_array by (by rewrite Hrequired).
  rewrite Hany. cbn [to_boolean].
  destruct (to_boolean (field (error d))) eqn:Hcustom.
  - eexists _, _. split; [reflexivity|]. intros Herror. by rewrite Herror in Hcustom.
  - rewrite Hrequired. cbn [field array_elements].
    eexists _, _. split; [reflexivity|]. intros _.
    unfold normalize_heap. rewrite Hrequired. reflexivity.
Qed.

(** C7, as amended.  For a failing descriptor without a custom error whose
    required list is non-empty and whose last path is non-empty and does not
    end in white space, the message is "Object must contain a valid value
    for " followed by X for one path, X or Y for two, and the comma-separated
    list with "or" before the last path for three or more: ['a','b','c']
    gives "Object must contain a valid value for a, b, or c". *)
Theorem default_message_format object lazy ref h d id paths z judged :
  descriptors h !! ref = Some d ->
  required d = Some (JsArray id (JsString <$> paths)) ->
  error d = None ->
  doesObjectHaveAny object d = Normal judged ->
  to_boolean judged = false ->
  last paths = Some z ->
  ends_in_non_space z = true ->
  validate object [ref] lazy h =
    Returns
      {| valid := false;
         errors :=
           [message_object (next_id h)
              ("Object must contain a valid value for " +:+ joined_paths paths)] |}
      {| descriptors := descriptors h; next_id := S (next_id h) |} /\
  joined_paths ["a"; "b"; "c"] = "a, b, or c".
Proof.
  intros Hd Hrequired Herror Hany Hjudged Hlast Hz. split; [|reflexivity].
  rewrite validate_single, visit_descriptor_eq, Hd. cbv zeta.
  unfold normalize_heap.
  rewrite normalize_array by (by rewrite Hrequired).
  rewrite Hany, Hjudged, Herror, Hrequired.
  cbn [field to_boolean is_array array_elements app errors].
  by rewrite (default_error_message_joined paths z Hlast Hz).
Qed.

(** A truthy custom error is what a failing descriptor appends, as it is. *)
Lemma truthy_error_verbatim object lazy ref h d e judged :
  descriptors h !! ref = Some d ->
  error d = Some e ->
  to_boolean e = true ->
  doesObjectHaveAny object (normalize (next_id h) d) = Normal judged ->
  to_boolean judged = false ->
  validate object [ref] lazy h =
  Returns {| valid := false; errors := [e] |} (normalize_heap ref h d).
Proof.
  intros Hd Herror He Hany Hjudged.
  rewrite validate_single, visit_descriptor_eq, Hd. cbv zeta. rewrite Hany, Hjudged.
  assert (error (normalize (next_id h) d) = Some e) as ->
    by (unfold normalize; by destruct (is_array _)).
  cbn [field]. by rewrite He.
Qed.

(** C8, as amended.  When validate returns, every descriptor it evaluated
    (all of them in eager mode, in lazy mode those that no failing
    descriptor precedes) whose required field was a single path string has
    that field replaced, in the caller's own descriptor object, by a
    one-element list holding the string, the other fields untouched; a
    descriptor whose required field was a list already is left as it was. *)
Theorem normalization_in_place object refs lazy h result h' :
  validate object refs lazy h = Returns result h' ->
  (forall before ref after d s,
     refs = before ++ ref :: after ->
     lazy = false \/ Forall (passes object h) before ->
     descriptors h !! ref = Some d ->
     required d = Some (JsString s) ->
     exists id,
       descriptors h' !! ref =
       Some {| required := Some (JsArray id [JsString s]);
               invalidValues := invalidValues d;
               error := error d |}) /\
  (forall ref d id elements,
     descriptors h !! ref = Some d ->
     required d = Some (JsArray id elements) ->
     descriptors h' !! ref = Some d).
Proof.
  intros Hvalidate. split.
  - intros before ref after d s -> Hreach Hd Hrequired. unfold validate in Hvalidate.
    destruct (some_descriptor_reach object lazy before (ref :: after)
                {| valid := true; errors := [] |} h Hreach)
      as [(e & h1 & Hraises)|(result1 & h1 & Hext1 & Hrest)]; [congruence|].
    rewrite Hrest, some_descriptor_cons in Hvalidate.
    destruct (visit_descriptor object lazy ref result1 h1)
      as [[stop result2] h2|e h2] eqn:Hvisit; [|discriminate].
    destruct (visit_descriptor_returns _ _ _ _ _ _ _ _ Hvisit)
      as (d1 & v & Hd1 & _ & Hd2 & _).
    destruct (heap_extends_lookup _ _ _ _ Hext1 Hd) as (d1' & Hd1' & Hnorm).
    assert (d1' = d1) as -> by congruence.
    destruct (normalizes_to_normalize d d1 (next_id h1) Hnorm) as [id Hid].
    rewrite Hid in Hd2.
    assert (heap_extends h2 h') as Hext2.
    { destruct stop; [injection Hvalidate as _ ->; reflexivity|].
      pose proof (some_descriptor_extends object lazy after result2 h2) as Hext.
      by rewrite Hvalidate in Hext. }
    destruct (heap_extends_lookup _ _ _ _ Hext2 Hd2) as (d' & Hd' & Hnorm').
    rewrite (normalizes_to_array _ _ Hnorm' (normalize_is_array id d)) in Hd'.
    exists id. rewrite Hd'. unfold normalize. by rewrite Hrequired.
  - intros ref d id elements Hd Hrequired.
    pose proof (some_descriptor_extends object lazy refs {| valid := true; errors := [] |} h)
      as Hext.
    unfold validate in Hvalidate. rewrite Hvalidate in Hext. cbn [outcome_heap] in Hext.
    destruct (heap_extends_lookup _ _ _ _ Hext Hd) as (d' & Hd' & Hnorm).
    rewrite Hd'. f_equal. apply (normalizes_to_array _ _ Hnorm). by rewrite Hrequired.
Qed.

(** C9, as amended.  validate raises an error once it reaches a descriptor
    whose required field is absent, which it does whenever no error was
    raised before: always in eager mode, and in lazy mode when every
    descriptor before it passes. *)
Theorem absent_required_raises object lazy before ref after h d :
  descriptors h !! ref = Some d ->
  required d = None ->
  lazy = false \/ Forall (passes object h) before ->
  exists h', validate object (before ++ ref :: after) lazy h = Raises TypeError h'.
Proof.
  intros Hd Hrequired Hreach. unfold validate.
  destruct (some_descriptor_reach object lazy before (ref :: after)
              {| valid := true; errors := [] |} h Hreach)
    as [(e & h' & ->)|(result' & h' & Hext & ->)].
  - destruct e. eauto.
  - rewrite some_descriptor_cons, visit_descriptor_eq.
    destruct (heap_extends_lookup _ _ _ _ Hext Hd) as (d' & -> & Hnorm). cbv zeta.
    rewrite (normalizes_to_judgement object d d' 0 _ Hnorm).
    rewrite absent_required_throws by done. eauto.
Qed.

(** ** Further properties: what a visit does *)

Lemma array_elements_candidates id d :
  array_elements (field (required (normalize id d))) = candidates d.
Proof. unfold candidates, normalize. by destruct (is_array (field (required d))). Qed.

Lemma candidates_normalize id d : candidates (normalize id d) = candidates d.
Proof.
  unfold candidates at 1. rewrite normalize_idempotent. apply array_elements_candidates.
Qed.

Lemma doesObjectHaveAny_candidates object id d :
  doesObjectHaveAny object (normalize id d) =
  match candidates d with
  | Normal elements => some_required object (invalidValues d) elements JsNull
  | Throw e => Throw e
  end.
Proof.
  unfold doesObjectHaveAny. rewrite array_elements_candidates.
  assert (invalidValues (normalize id d) = invalidValues d) as ->
    by (unfold normalize; by destruct (is_array _)).
  by destruct (candidates d).
Qed.

Lemma error_normalize id d : error (normalize id d) = error d.
Proof. unfold normalize. by destruct (is_array _). Qed.

Lemma normalizes_to_same_rule d d' : normalizes_to d d' -> same_rule d d'.
Proof.
  intros [->|(id & _ & ->)]; [done|].
  split_and!; [by rewrite candidates_normalize| |by rewrite error_normalize].
  unfold normalize. by destruct (is_array _).
Qed.

Lemma judgement_eq object h ref d id :
  descriptors h !! ref = Some d ->
  judgement object h ref = doesObjectHaveAny object (normalize id d).
Proof. unfold judgement. intros ->. apply doesObjectHaveAny_normalize. Qed.

Lemma judgement_extends object h h' ref :
  heap_extends h h' -> judgement object h' ref = judgement object h ref.
Proof.
  intros Hext. unfold judgement.
  destruct (descriptors h !! ref) as [d|] eqn:Hd.
  - destruct (heap_extends_lookup _ _ _ _ Hext Hd) as (d' & -> & Hnorm).
    by apply normalizes_to_judgement.
  - destruct (descriptors h' !! ref) as [d'|] eqn:Hd'; [|reflexivity].
    destruct (heap_extends_lookup_back _ _ _ _ Hext Hd') as (d & Hd0 & _). congruence.
Qed.

Lemma judged_invalid_extends object h h' ref :
  heap_extends h h' -> judged_invalid object h' ref = judged_invalid object h ref.
Proof. intros Hext. unfold judged_invalid. by rewrite (judgement_extends object h h'). Qed.

Lemma payload_of_extends h h' ref e :
  heap_extends h h' -> payload_of h' ref e <-> payload_of h ref e.
Proof.
  intros Hext. unfold payload_of. split.
  - intros (d' & Hd' & Hpayload).
    destruct (heap_extends_lookup_back _ _ _ _ Hext Hd') as (d & Hd & Hnorm).
    destruct (normalizes_to_same_rule _ _ Hnorm) as (Hcandidates & _ & Herror).
    exists d. split; [exact Hd|]. by rewrite Hcandidates, Herror.
  - intros (d & Hd & Hpayload).
    destruct (heap_extends_lookup _ _ _ _ Hext Hd) as (d' & Hd' & Hnorm).
    destruct (normalizes_to_same_rule _ _ Hnorm) as (Hcandidates & _ & Herror).
    exists d'. split; [exact Hd'|]. by rewrite <- Hcandidates, <- Herror.
Qed.

(** A visit raises, passes, or fails appending the payload of its
    descriptor; neither the payload nor the heap it leaves depends on the
    result accumulated so far or on [lazy]. *)
Lemma visit_descriptor_outcome object ref h :
  (exists e h', forall lazy result,
     visit_descriptor object lazy ref result h = Raises e h') \/
  (exists h',
     heap_extends h h' /\ passes object h ref /\ judged_invalid object h ref = false /\
     forall lazy result,
       visit_descriptor object lazy ref result h = Returns (false, result) h') \/
  (exists e h',
     heap_extends h h' /\ ~ passes object h ref /\ judged_invalid object h ref = true /\
     payload_of h ref e /\
     forall lazy result,
       visit_descriptor object lazy ref result h =
       Returns (lazy, {| valid := false; errors := errors result ++ [e] |}) h').
Proof.
  destruct (descriptors h !! ref) as [d|] eqn:Hd.
  2: { left. exists TypeError, h. intros lazy result. by rewrite visit_descriptor_eq, Hd. }
  pose proof (normalize_heap_extends ref h d Hd) as Hext.
  pose proof (judgement_eq object h ref d (next_id h) Hd) as Hjudgement.
  destruct (doesObjectHaveAny object (normalize (next_id h) d)) as [v|e] eqn:Hany.
  2: { left. exists e, (normalize_heap ref h d). intros lazy result.
       by rewrite visit_descriptor_eq, Hd; cbv zeta; rewrite Hany. }
  destruct (to_boolean v) eqn:Hv.
  { right. left. exists (normalize_heap ref h d). split_and!; [exact Hext| | |].
    - by exists d, (next_id h), v.
    - unfold judged_invalid. by rewrite Hjudgement, Hv.
    - intros lazy result. by rewrite visit_descriptor_eq, Hd; cbv zeta; rewrite Hany, Hv. }
  assert (~ passes object h ref) as Hfails.
  { intros Hpass. pose proof (passes_judgement _ _ _ _ _ _ Hpass Hd Hany). congruence. }
  assert (judged_invalid object h ref = true) as Hinvalid
    by (unfold judged_invalid; by rewrite Hjudgement, Hv).
  right. right.
  destruct (to_boolean (field (error d))) eqn:Hcustom.
  { exists (field (error d)), (normalize_heap ref h d).
    split_and!; [exact Hext|exact Hfails|exact Hinvalid| |].
    - exists d. by rewrite Hcustom.
    - intros lazy result.
      by rewrite visit_descriptor_eq, Hd; cbv zeta; rewrite Hany, Hv, error_normalize, Hcustom. }
  destruct (array_elements_normalize (next_id h) d) as [elements Helements].
  eexists _, _. split_and!; [|exact Hfails|exact Hinvalid| |].
  3: { intros lazy result.
       by rewrite visit_descriptor_eq, Hd; cbv zeta;
         rewrite Hany, Hv, error_normalize, Hcustom, Helements. }
  - exact Hext.
  - exists d. rewrite Hcustom. split; [exact Hd|].
    eexists _, elements. split; [|reflexivity]. by rewrite <- (array_elements_candidates (next_id h)).
Qed.

(** ** Further properties: the result *)

Lemma some_descriptor_accumulates object lazy refs result h r h' :
  some_descriptor object lazy refs result h = Returns r h' ->
  exists new,
    errors r = errors result ++ new /\
    valid r = (if new is [] then valid result else false) /\
    (new = [] <-> Forall (passes object h) refs) /\
    Forall2 (payload_of h)
      (if lazy then take 1 (List.filter (judged_invalid object h) refs)
       else List.filter (judged_invalid object h) refs)
      new.
Proof.
  revert result h. induction refs as [|ref rest IH]; intros result h.
  { cbn. intros [= <- <-]. exists []. rewrite app_nil_r.
    split_and!; try done. destruct lazy; constructor. }
  rewrite some_descriptor_cons.
  destruct (visit_descriptor_outcome object ref h)
    as [(e & h1 & ->)|[(h1 & Hext & Hpass & Hvalid & ->)
                      |(e & h1 & Hext & Hfails & Hinvalid & Hpayload & ->)]].
  - discriminate.
  - intros Hrest.
    destruct (IH _ _ Hrest) as (new & Herrors & Hflag & Hall & Hpayloads).
    exists new. split_and!; [exact Herrors|exact Hflag| |].
    + rewrite Hall, Forall_cons.
      assert (Forall (passes object h1) rest <-> Forall (passes object h) rest) as ->;
        [|tauto].
      apply Forall_iff. intros r0. by apply passes_extends.
    + cbn [List.filter]. rewrite Hvalid.
      rewrite (List.filter_ext _ _ (fun r0 => judged_invalid_extends object h h1 r0 Hext))
        in Hpayloads.
      eapply Forall2_impl; [exact Hpayloads|].
      intros r0 e0 Hp. by apply (payload_of_extends h h1 r0 e0 Hext).
  - assert (forall new, e :: new = [] <-> Forall (passes object h) (ref :: rest)) as Hnever.
    { intros new. split; [discriminate|]. intros [Hpass _]%Forall_cons. by destruct Hfails. }
    cbn [List.filter]. rewrite Hinvalid.
    destruct lazy.
    + intros [= <- <-]. exists [e]. cbn [errors valid take].
      split_and!; [done|done|apply Hnever|]. by constructor.
    + intros Hrest.
      destruct (IH _ _ Hrest) as (new & Herrors & Hflag & _ & Hpayloads).
      cbn [errors valid] in Herrors, Hflag.
      exists (e :: new). split_and!; [|by rewrite Hflag; destruct new|apply Hnever|].
      * by rewrite Herrors, <- app_assoc.
      * constructor; [exact Hpayload|].
        rewrite (List.filter_ext _ _ (fun r0 => judged_invalid_extends object h h1 r0 Hext))
          in Hpayloads.
        eapply Forall2_impl; [exact Hpayloads|].
        intros r0 e0 Hp. by apply (payload_of_extends h h1 r0 e0 Hext).
Qed.

(** C5, as amended.  Whenever the lazy run returns, its errors list has
    length 0 or 1, and length 0 iff every descriptor passes; whenever the
    eager run on the same inputs returns as well (it may raise at a
    descriptor the lazy run never reaches), the lazy errors are the first
    of the eager errors if any, so that when some descriptor fails the
    single lazy error is errors[0] of the eager result, and both runs agree
    on the valid flag; and whenever the eager run returns, so does the lazy
    one. *)
Theorem lazy_mode_invariant object refs h :
  (forall rl hl,
     validate object refs true h = Returns rl hl ->
     length (errors rl) <= 1 /\
     (errors rl = [] <-> Forall (passes object h) refs) /\
     forall r h',
       validate object refs false h = Returns r h' ->
       errors rl = take 1 (errors r) /\
       valid rl = valid r /\
       (~ Forall (passes object h) refs ->
        exists e, errors rl = [e] /\ errors r !! 0 = Some e)) /\
  (forall r h',
     validate object refs false h = Returns r h' ->
     exists rl hl, validate object refs true h = Returns rl hl).
Proof.
  split.
  - intros rl hl Hlazy. split_and!.
    + destruct (lazy_at_most_one_error _ _ _ _ _ _ Hlazy) as (new & -> & Hnew).
      exact Hnew.
    + destruct (some_descriptor_accumulates _ _ _ _ _ _ _ Hlazy)
        as (new & -> & _ & Hall & _).
      exact Hall.
    + intros r h' Heager.
      destruct (lazy_stops_at_first_failure _ _ _ _ _ _ Heager)
        as (new & rl' & hl' & Hr & _ & Hlazy' & Hrl & Hflag & Hall).
      unfold validate in Hlazy. rewrite Hlazy in Hlazy'.
      injection Hlazy' as <- <-.
      cbn [errors app] in Hr, Hrl. rewrite Hr, Hrl, <- Hall.
      split_and!; [reflexivity|exact Hflag|].
      destruct new as [|e new]; [done|]. intros _. by exists e.
  - intros r h' Heager.
    destruct (lazy_stops_at_first_failure _ _ _ _ _ _ Heager)
      as (new & rl & hl & _ & _ & Hlazy & _).
    by exists rl, hl.
Qed.

(** X1. Whenever validate returns, lazily or not, valid is true exactly
    when every descriptor of the list passes. *)
Theorem valid_iff_all_pass object refs lazy h r h' :
  validate object refs lazy h = Returns r h' ->
  valid r = true <-> Forall (passes object h) refs.
Proof.
  intros Hvalidate.
  destruct (some_descriptor_accumulates _ _ _ _ _ _ _ Hvalidate)
    as (new & _ & -> & <- & _).
  cbn [valid]. by destruct new.
Qed.

(** X2. Whenever validate returns, valid is true exactly when the errors
    list is empty: a failure is never recorded without a payload, nor a
    payload without a failure. *)
Theorem valid_iff_no_errors object refs lazy h r h' :
  validate object refs lazy h = Returns r h' ->
  valid r = true <-> errors r = [].
Proof.
  intros Hvalidate.
  destruct (some_descriptor_accumulates _ _ _ _ _ _ _ Hvalidate)
    as (new & -> & -> & _).
  cbn [errors valid app]. by destruct new.
Qed.

(** X3. In eager mode the errors are, in the order of the list, the payloads
    of the descriptors judged invalid, one each (a descriptor listed twice
    and failing is reported twice); in lazy mode, that of the first one
    only.  A payload is the descriptor's truthy error, else a message object
    for its candidates. *)
Theorem errors_are_the_failures_in_order object refs lazy h r h' :
  validate object refs lazy h = Returns r h' ->
  Forall2 (payload_of h)
    (if lazy then take 1 (List.filter (judged_invalid object h) refs)
     else List.filter (judged_invalid object h) refs)
    (errors r).
Proof.
  intros Hvalidate.
  destruct (some_descriptor_accumulates _ _ _ _ _ _ _ Hvalidate)
    as (new & -> & _ & _ & Hpayloads).
  exact Hpayloads.
Qed.

(** The result accumulated so far is only ever extended. *)
Lemma some_descriptor_from_result object lazy refs result h :
  some_descriptor object lazy refs result h =
  match some_descriptor object lazy refs {| valid := true; errors := [] |} h with
  | Returns r h' =>
      Returns {| valid := valid result && valid r; errors := errors result ++ errors r |} h'
  | Raises e h' => Raises e h'
  end.
Proof.
  revert result h. induction refs as [|ref rest IH]; intros result h.
  { cbn. unfold mret, eval_ret. destruct result as [v es]. cbn.
    by rewrite andb_true_r, app_nil_r. }
  rewrite !some_descriptor_cons.
  destruct (visit_descriptor_outcome object ref h)
    as [(e & h1 & Hvisit)|[(h1 & _ & _ & _ & Hvisit)|(e & h1 & _ & _ & _ & _ & Hvisit)]];
    rewrite !Hvisit.
  - reflexivity.
  - apply IH.
  - destruct lazy.
    + cbn [valid errors app]. by rewrite andb_false_r.
    + rewrite (IH {| valid := false; errors := errors result ++ [e] |}).
      rewrite (IH {| valid := false; errors := [] ++ [e] |}).
      destruct (some_descriptor object false rest _ h1) as [r0 h'|e0 h']; [|reflexivity].
      cbn [valid errors app andb]. by rewrite andb_false_r, <- app_assoc.
Qed.

Lemma some_descriptor_app_eager object before rest result h :
  some_descriptor object false (before ++ rest) result h =
  match some_descriptor object false before result h with
  | Returns r h' => some_descriptor object false rest r h'
  | Raises e h' => Raises e h'
  end.
Proof.
  revert result h. induction before as [|ref before IH]; intros result h; [reflexivity|].
  cbn [app]. rewrite !some_descriptor_cons.
  destruct (visit_descriptor_outcome object ref h)
    as [(e & h1 & Hvisit)|[(h1 & _ & _ & _ & Hvisit)|(e & h1 & _ & _ & _ & _ & Hvisit)]];
    rewrite !Hvisit; [reflexivity|apply IH|apply IH].
Qed.

(** X4. Eager validation of a concatenated list is validation of the first
    part followed by validation of the second on the heap the first leaves:
    the errors are concatenated and the flags conjoined; an error raised in
    the first part is the error of the whole. *)
Theorem eager_validation_composes object before rest h :
  (forall r1 h1 r2 h2,
     validate object before false h = Returns r1 h1 ->
     validate object rest false h1 = Returns r2 h2 ->
     validate object (before ++ rest) false h =
     Returns {| valid := valid r1 && valid r2; errors := errors r1 ++ errors r2 |} h2) /\
  (forall e h1,
     validate object before false h = Raises e h1 ->
     validate object (before ++ rest) false h = Raises e h1).
Proof.
  unfold validate. split.
  - intros r1 h1 r2 h2 Hbefore Hrest.
    by rewrite some_descriptor_app_eager, Hbefore, some_descriptor_from_result, Hrest.
  - intros e h1 Hbefore. by rewrite some_descriptor_app_eager, Hbefore.
Qed.

Lemma some_descriptor_app_lazy object before rest result h r h' :
  some_descriptor object true before result h = Returns r h' ->
  valid result = true ->
  some_descriptor object true (before ++ rest) result h =
  if valid r then some_descriptor object true rest r h' else Returns r h'.
Proof.
  revert result h. induction before as [|ref before IH]; intros result h.
  { cbn. intros [= <- <-] ->. reflexivity. }
  cbn [app]. rewrite !some_descriptor_cons.
  destruct (visit_descriptor_outcome object ref h)
    as [(e & h1 & Hvisit)|[(h1 & _ & _ & _ & Hvisit)|(e & h1 & _ & _ & _ & _ & Hvisit)]];
    rewrite !Hvisit.
  - discriminate.
  - apply IH.
  - by intros [= <- <-] _.
Qed.

(** X5. In lazy mode nothing after the first failing descriptor matters:
    when validation of a list returns invalid, validation of that list
    followed by any further references, dangling or malformed ones
    included, returns the same result and leaves the same heap; when it
    returns valid, validation goes on with what follows. *)
Theorem lazy_ignores_what_follows_a_failure object before rest h r h' :
  validate object before true h = Returns r h' ->
  validate object (before ++ rest) true h =
  if valid r then validate object rest true h' else Returns r h'.
Proof.
  intros Hbefore. unfold validate in *.
  rewrite (some_descriptor_app_lazy _ _ rest _ _ _ _ Hbefore eq_refl).
  destruct (valid r) eqn:Hvalid; [|reflexivity].
  assert (errors r = []) as Herrors by (by apply (valid_iff_no_errors _ _ _ _ _ _ Hbefore)).
  destruct r as [v es]. cbn in Hvalid, Herrors. by subst.
Qed.

(** ** Further properties: the heap *)

Lemma normalize_heap_frame ref h d other :
  other <> ref ->
  descriptors (normalize_heap ref h d) !! other = descriptors h !! other.
Proof.
  intros Hother. unfold normalize_heap.
  destruct (is_array (field (required d))); [reflexivity|].
  cbn [descriptors]. by apply list_lookup_insert_ne.
Qed.

Lemma normalize_heap_next_id ref h d : next_id h <= next_id (normalize_heap ref h d).
Proof. unfold normalize_heap. destruct (is_array _); cbn; lia. Qed.

Lemma visit_descriptor_frame object lazy ref result h :
  (forall other, other <> ref ->
     descriptors (outcome_heap (visit_descriptor object lazy ref result h)) !! other =
     descriptors h !! other) /\
  next_id h <= next_id (outcome_heap (visit_descriptor object lazy ref result h)).
Proof.
  rewrite visit_descriptor_eq.
  destruct (descriptors h !! ref) as [d|] eqn:Hd; [|by split]. cbv zeta.
  pose proof (normalize_heap_frame ref h d) as Hframe.
  pose proof (normalize_heap_next_id ref h d) as Hnext.
  destruct (doesObjectHaveAny _ _) as [v|e]; [|by split].
  destruct (to_boolean v); [by split|].
  destruct (to_boolean (field (error _))); [by split|].
  destruct (array_elements _); [|by split].
  split; [exact Hframe|]. cbn [outcome_heap next_id]. lia.
Qed.

Lemma some_descriptor_frame object lazy refs result h :
  (forall other, other ∉ refs ->
     descriptors (outcome_heap (some_descriptor object lazy refs result h)) !! other =
     descriptors h !! other) /\
  next_id h <= next_id (outcome_heap (some_descriptor object lazy refs result h)).
Proof.
  revert result h. induction refs as [|ref rest IH]; intros result h; [by split|].
  rewrite some_descriptor_cons.
  destruct (visit_descriptor_frame object lazy ref result h) as [Hframe Hnext].
  destruct (visit_descriptor object lazy ref result h) as [[stop result'] h'|e h'];
    cbn [outcome_heap] in Hframe, Hnext.
  2: { split; [|exact Hnext]. intros other Hother. apply Hframe.
       intros ->. apply Hother. left. }
  destruct stop.
  { split; [|exact Hnext]. intros other Hother. apply Hframe.
    intros ->. apply Hother. left. }
  destruct (IH result' h') as [Hframe' Hnext']. split; [|lia].
  intros other Hother. rewrite Hframe'; [apply Hframe|].
  - intros ->. apply Hother. left.
  - intros Hin. apply Hother. by right.
Qed.

(** X6. Whatever validate does, return or raise, it leaves the heap with as
    many descriptors as it found; a descriptor the list does not reference
    is untouched, and a referenced one keeps its invalid values, its error
    and its candidates: only the shape of required can have changed.
    Identities are only ever allocated, never reused. *)
Theorem validate_frame object refs lazy h :
  length (descriptors (outcome_heap (validate object refs lazy h))) =
    length (descriptors h) /\
  (forall other, other ∉ refs ->
     descriptors (outcome_heap (validate object refs lazy h)) !! other =
     descriptors h !! other) /\
  (forall ref d',
     descriptors (outcome_heap (validate object refs lazy h)) !! ref = Some d' ->
     exists d, descriptors h !! ref = Some d /\ same_rule d d') /\
  next_id h <= next_id (outcome_heap (validate object refs lazy h)).
Proof.
  unfold validate.
  pose proof (some_descriptor_extends object lazy refs {| valid := true; errors := [] |} h)
    as Hext.
  destruct (some_descriptor_frame object lazy refs {| valid := true; errors := [] |} h)
    as [Hframe Hnext].
  split_and!; [|exact Hframe| |exact Hnext].
  - symmetry. by eapply Forall2_length.
  - intros ref d' Hd'.
    destruct (heap_extends_lookup_back _ _ _ _ Hext Hd') as (d & Hd & Hnorm).
    exists d. split; [exact Hd|]. by apply normalizes_to_same_rule.
Qed.

(** ** Further properties: descriptors that state the same rule *)

#[local] Instance same_rule_equivalence : Equivalence same_rule.
Proof.
  split.
  - by intros d.
  - intros d d' (H1 & H2 & H3). by split_and!.
  - intros d1 d2 d3 (H1 & H2 & H3) (H1' & H2' & H3'). split_and!; congruence.
Qed.

Lemma normalize_heap_same_rule ref h d :
  descriptors h !! ref = Some d ->
  Forall2 same_rule (descriptors h) (descriptors (normalize_heap ref h d)).
Proof.
  intros Hd. eapply Forall2_impl; [apply (normalize_heap_extends ref h d Hd)|].
  apply normalizes_to_same_rule.
Qed.

(** On two heaps whose descriptors state the same rules, a visit raises,
    passes, or fails on both alike. *)
Lemma visit_descriptor_same_rule object ref h hx :
  Forall2 same_rule (descriptors h) (descriptors hx) ->
  (exists e h' hx', forall lazy result resultx,
     visit_descriptor object lazy ref result h = Raises e h' /\
     visit_descriptor object lazy ref resultx hx = Raises e hx') \/
  (exists h' hx',
     Forall2 same_rule (descriptors h') (descriptors hx') /\
     forall lazy result resultx,
       visit_descriptor object lazy ref result h = Returns (false, result) h' /\
       visit_descriptor object lazy ref resultx hx = Returns (false, resultx) hx') \/
  (exists e ex h' hx',
     Forall2 same_rule (descriptors h') (descriptors hx') /\
     same_payload e ex /\
     forall lazy result resultx,
       visit_descriptor object lazy ref result h =
         Returns (lazy, {| valid := false; errors := errors result ++ [e] |}) h' /\
       visit_descriptor object lazy ref resultx hx =
         Returns (lazy, {| valid := false; errors := errors resultx ++ [ex] |}) hx').
Proof.
  intros Hheaps.
  pose proof (proj1 (Forall2_lookup _ _ _) Hheaps ref) as Hlookup.
  destruct (descriptors h !! ref) as [d|] eqn:Hd,
           (descriptors hx !! ref) as [dx|] eqn:Hdx;
    inversion Hlookup as [? ? (Hcandidates & Hinvalid & Herror)|]; subst.
  2: { left. exists TypeError, h, hx. intros lazy result resultx.
       by rewrite !visit_descriptor_eq, Hd, Hdx. }
  assert (Forall2 same_rule (descriptors (normalize_heap ref h d))
            (descriptors (normalize_heap ref hx dx))) as Hheaps'.
  { etransitivity; [symmetry; by apply normalize_heap_same_rule|].
    etransitivity; [exact Hheaps|]. by apply normalize_heap_same_rule. }
  pose proof (doesObjectHaveAny_candidates object (next_id h) d) as Hany.
  pose proof (doesObjectHaveAny_candidates object (next_id hx) dx) as Hanyx.
  rewrite <- Hcandidates, <- Hinvalid, <- Hany in Hanyx.
  destruct (doesObjectHaveAny object (normalize (next_id h) d)) as [v|e] eqn:Hjudged.
  2: { left. exists e, (normalize_heap ref h d), (normalize_heap ref hx dx).
       intros lazy result resultx. rewrite !visit_descriptor_eq, Hd, Hdx. cbv zeta.
       by rewrite Hjudged, Hanyx. }
  right. destruct (to_boolean v) eqn:Hv.
  { left. exists (normalize_heap ref h d), (normalize_heap ref hx dx).
    split; [exact Hheaps'|]. intros lazy result resultx.
    rewrite !visit_descriptor_eq, Hd, Hdx. cbv zeta. by rewrite Hjudged, Hanyx, Hv. }
  right. destruct (to_boolean (field (error d))) eqn:Hcustom.
  { exists (field (error d)), (field (error d)),
      (normalize_heap ref h d), (normalize_heap ref hx dx).
    split; [exact Hheaps'|]. split; [by left|]. intros lazy result resultx.
    rewrite !visit_descriptor_eq, Hd, Hdx. cbv zeta.
    by rewrite Hjudged, Hanyx, Hv, !error_normalize, <- Herror, Hcustom. }
  destruct (array_elements_normalize (next_id h) d) as [elements Helements].
  pose proof Helements as Helementsx.
  rewrite array_elements_candidates, Hcandidates,
    <- (array_elements_candidates (next_id hx)) in Helementsx.
  eexists _, _, _, _. split; [|split]; [| |intros lazy result resultx; split].
  3: { rewrite visit_descriptor_eq, Hd. cbv zeta.
       by rewrite Hjudged, Hv, error_normalize, Hcustom, Helements. }
  3: { rewrite visit_descriptor_eq, Hdx. cbv zeta.
       by rewrite Hanyx, Hv, error_normalize, <- Herror, Hcustom, Helementsx. }
  - exact Hheaps'.
  - right. by eexists _, _, _.
Qed.

Lemma validate_same_rule object lazy refs h hx :
  Forall2 same_rule (descriptors h) (descriptors hx) ->
  match validate object refs lazy h, validate object refs lazy hx with
  | Returns r _, Returns rx _ =>
      valid rx = valid r /\ Forall2 same_payload (errors r) (errors rx)
  | Raises e _, Raises ex _ => ex = e
  | _, _ => False
  end.
Proof.
  unfold validate. revert h hx.
  induction refs as [|ref rest IH]; intros h hx Hheaps; [by split|].
  rewrite !some_descriptor_cons.
  destruct (visit_descriptor_same_rule object ref h hx Hheaps)
    as [(e & h' & hx' & Hvisit)|[(h' & hx' & Hheaps' & Hvisit)
                                |(e & ex & h' & hx' & Hheaps' & Hpayload & Hvisit)]].
  - destruct (Hvisit lazy {| valid := true; errors := [] |} {| valid := true; errors := [] |})
      as [-> ->]. reflexivity.
  - destruct (Hvisit lazy {| valid := true; errors := [] |} {| valid := true; errors := [] |})
      as [-> ->]. by apply IH.
  - destruct (Hvisit lazy {| valid := true; errors := [] |} {| valid := true; errors := [] |})
      as [-> ->].
    destruct lazy; [split; [reflexivity|by constructor]|].
    rewrite (some_descriptor_from_result object false rest {| valid := false; errors := _ |} h').
    rewrite (some_descriptor_from_result object false rest {| valid := false; errors := _ |} hx').
    specialize (IH h' hx' Hheaps').
    destruct (some_descriptor object false rest _ h'),
             (some_descriptor object false rest _ hx'); try done.
    destruct IH as [_ Herrors]. split; [reflexivity|]. by constructor.
Qed.

(** X7. validate judges the rule a descriptor states, not the way it is
    written: on two heaps whose descriptors have pairwise the same
    candidates, invalid values and error (required a bare value in one and
    a one-element list in the other, say), both calls return, with the same
    flag and the same payloads up to the identity of generated message
    objects, or both raise the same error. *)
Theorem validate_respects_same_rule object refs lazy h hx :
  Forall2 same_rule (descriptors h) (descriptors hx) ->
  (forall r h',
     validate object refs lazy h = Returns r h' ->
     exists rx hx',
       validate object refs lazy hx = Returns rx hx' /\
       valid rx = valid r /\
       Forall2 same_payload (errors r) (errors rx)) /\
  (forall e h',
     validate object refs lazy h = Raises e h' ->
     exists hx', validate object refs lazy hx = Raises e hx').
Proof.
  intros Hheaps. pose proof (validate_same_rule object lazy refs h hx Hheaps) as Hsim.
  split.
  - intros r h' Hvalidate. rewrite Hvalidate in Hsim.
    destruct (validate object refs lazy hx) as [rx hx'|]; [|done]. by exists rx, hx'.
  - intros e h' Hvalidate. rewrite Hvalidate in Hsim.
    destruct (validate object refs lazy hx) as [|ex hx']; [done|]. subst. by exists hx'.
Qed.

Lemma some_descriptor_settled object lazy refs result h r h' :
  some_descriptor object lazy refs result h = Returns r h' ->
  forall resultx hx,
    heap_extends h' hx ->
    descriptors (outcome_heap (some_descriptor object lazy refs resultx hx)) =
    descriptors hx.
Proof.
  revert result h. induction refs as [|ref rest IH]; intros result h; [done|].
  rewrite some_descriptor_cons.
  destruct (visit_descriptor object lazy ref result h) as [[stop r1] h1|] eqn:Hvisit;
    [|discriminate].
  intros Hrest resultx hx Hext.
  destruct (visit_descriptor_returns _ _ _ _ _ _ _ _ Hvisit)
    as (d & v & Hd & Hany & Hd1 & Hcases).
  assert (heap_extends h1 h') as Hext1.
  { destruct stop; [injection Hrest as _ ->; reflexivity|].
    pose proof (some_descriptor_extends object lazy rest r1 h1) as Hext1.
    by rewrite Hrest in Hext1. }
  assert (heap_extends h1 hx) as Hext1x by (by etransitivity).
  destruct (heap_extends_lookup _ _ _ _ Hext1x Hd1) as (dn & Hdn & Hnorm).
  rewrite (normalizes_to_array _ _ Hnorm (normalize_is_array _ d)) in Hdn.
  pose proof (normalize_is_array (next_id h) d) as Harray.
  rewrite some_descriptor_cons, visit_descriptor_eq, Hdn. cbv zeta.
  rewrite normalize_idempotent, Hany.
  unfold normalize_heap. rewrite Harray.
  destruct Hcases as [(Hv & -> & ->)|(Hv & -> & _)]; rewrite Hv.
  { by apply (IH _ _ Hrest). }
  destruct (to_boolean (field (error _))).
  { destruct lazy; [reflexivity|]. by apply (IH _ _ Hrest). }
  destruct (array_elements_normalize (next_id h) d) as [elements ->].
  destruct lazy; [reflexivity|].
  by rewrite (IH _ _ Hrest).
Qed.

(** X8. Calling validate again on the heap a first call left returns the
    same flag and the same payloads, up to the identity of generated
    message objects, and changes no descriptor any more. *)
Theorem validate_twice object refs lazy h r h' :
  validate object refs lazy h = Returns r h' ->
  exists r2 h2,
    validate object refs lazy h' = Returns r2 h2 /\
    valid r2 = valid r /\
    Forall2 same_payload (errors r) (errors r2) /\
    descriptors h2 = descriptors h'.
Proof.
  intros Hvalidate.
  pose proof (some_descriptor_extends object lazy refs {| valid := true; errors := [] |} h)
    as Hext.
  unfold validate in Hvalidate. rewrite Hvalidate in Hext. cbn [outcome_heap] in Hext.
  assert (Forall2 same_rule (descriptors h) (descriptors h')) as Hheaps
    by (eapply Forall2_impl; [exact Hext|apply normalizes_to_same_rule]).
  pose proof (validate_same_rule object lazy refs h h' Hheaps) as Hsim.
  pose proof (some_descriptor_settled _ _ _ _ _ _ _ Hvalidate
                {| valid := true; errors := [] |} h' (reflexivity _)) as Hsettled.
  unfold validate in *. rewrite Hvalidate in Hsim.
  destruct (some_descriptor object lazy refs _ h') as [r2 h2|]; [|done].
  exists r2, h2. by destruct Hsim.
Qed.

(** ** Further properties: errors raised *)

Lemma doesObjectHaveProperty_not_string object v invalid :
  is_string v = false -> doesObjectHaveProperty object v invalid = Throw TypeError.
Proof. by destruct v. Qed.

Lemma some_required_nullish object invalid elements result :
  is_nullish object = true ->
  elements <> [] ->
  some_required object invalid elements result = Throw TypeError.
Proof.
  intros Hobject Helements. destruct elements as [|v rest]; [done|].
  rewrite some_required_cons.
  destruct (is_string v) eqn:Hv.
  - destruct v; try discriminate. by rewrite doesObjectHaveProperty_nullish_root.
  - by rewrite doesObjectHaveProperty_not_string.
Qed.


(** Once reached, a descriptor whose judgement raises makes validate raise. *)
Lemma raising_descriptor_raises object lazy before ref after h d :
  descriptors h !! ref = Some d ->
  doesObjectHaveAny object (normalize 0 d) = Throw TypeError ->
  lazy = false \/ Forall (passes object h) before ->
  exists h', validate object (before ++ ref :: after) lazy h = Raises TypeError h'.
Proof.
  intros Hd Hraises Hreach. unfold validate.
  destruct (some_descriptor_reach object lazy before (ref :: after)
              {| valid := true; errors := [] |} h Hreach)
    as [(e & h' & ->)|(result' & h' & Hext & ->)].
  - destruct e. eauto.
  - rewrite some_descriptor_cons, visit_descriptor_eq.
    destruct (heap_extends_lookup _ _ _ _ Hext Hd) as (d' & -> & Hnorm). cbv zeta.
    rewrite (normalizes_to_judgement object d d' 0 _ Hnorm), Hraises. eauto.
Qed.

(** X9. On an object that is undefined or null, validate raises a TypeError
    as soon as it reaches a descriptor with at least one candidate, whatever
    the candidate is: in eager mode wherever the descriptor stands, in lazy
    mode when every descriptor before it passes.  Only a descriptor whose
    required is the empty list is survived. *)
Theorem nullish_object_raises object lazy before ref after h d :
  is_nullish object = true ->
  descriptors h !! ref = Some d ->
  candidates d <> Normal [] ->
  lazy = false \/ Forall (passes object h) before ->
  exists h', validate object (before ++ ref :: after) lazy h = Raises TypeError h'.
Proof.
  intros Hobject Hd Hcandidates. apply raising_descriptor_raises with d; [exact Hd|].
  rewrite doesObjectHaveAny_candidates.
  destruct (candidates d) as [elements|[]]; [|reflexivity].
  apply some_required_nullish; [exact Hobject|]. by intros ->.
Qed.


(** ** Further properties: candidates and invalid values *)

Lemma includes_subseteq values values' v :
  values ⊆ values' -> includes values v = true -> includes values' v = true.
Proof.
  intros Hsub. unfold includes. rewrite !existsb_exists.
  intros (x & Hx & Hsame). exists x. split; [|exact Hsame].
  apply list_elem_of_In, Hsub, list_elem_of_In, Hx.
Qed.

Lemma doesObjectHaveProperty_fewer object v invalid invalid' found' :
  fewer_invalid invalid invalid' ->
  doesObjectHaveProperty object v invalid' = Normal found' ->
  exists found,
    doesObjectHaveProperty object v invalid = Normal found /\
    (found' = true -> found = true).
Proof.
  intros Hfewer. destruct v; try discriminate.
  rewrite !doesObjectHaveProperty_eq.
  destruct (every_property _ _ _) as [[x reached]|e]; [|discriminate].
  intros [= <-]. eexists. split; [reflexivity|].
  intros [-> Hvalues]%andb_true_iff. cbn [andb].
  destruct invalid as [values|]; [|reflexivity].
  destruct invalid' as [values'|]; cbn in Hfewer.
  - apply negb_true_iff in Hvalues. apply negb_true_iff.
    destruct (includes values x) eqn:Hin; [|reflexivity].
    by rewrite (includes_subseteq _ _ _ Hfewer Hin) in Hvalues.
  - by subst.
Qed.

Lemma some_required_fewer object invalid invalid' elements result result' v :
  fewer_invalid invalid invalid' ->
  to_boolean result' = false ->
  some_required object invalid' elements result' = Normal v ->
  to_boolean v = true ->
  some_required object invalid elements result = Normal (JsBoolean true).
Proof.
  intros Hfewer. revert result result'.
  induction elements as [|element rest IH]; intros result result' Hresult'.
  { cbn. intros [= <-]. congruence. }
  rewrite !some_required_cons.
  destruct (doesObjectHaveProperty object element invalid') as [found'|] eqn:Hfound';
    [|discriminate].
  destruct (doesObjectHaveProperty_fewer _ _ _ _ _ Hfewer Hfound') as (found & -> & Hmore).
  destruct found'; [by rewrite Hmore|].
  destruct found; [done|]. by apply IH.
Qed.

(** X11. Invalid values can only take validity away: a descriptor judged
    valid with some invalid values is judged valid with fewer of them (a
    sublist, the empty list, or none at all), and without raising. *)
Theorem fewer_invalid_values_judge_valid object r invalid invalid' custom custom' v :
  fewer_invalid invalid invalid' ->
  doesObjectHaveAny object
    {| required := r; invalidValues := invalid'; error := custom' |} = Normal v ->
  to_boolean v = true ->
  doesObjectHaveAny object
    {| required := r; invalidValues := invalid; error := custom |} = Normal (JsBoolean true).
Proof.
  intros Hfewer. unfold doesObjectHaveAny, mbind, completion_bind. cbn [required invalidValues].
  destruct (array_elements (field r)) as [elements|]; [|discriminate].
  by apply some_required_fewer.
Qed.


(** ** Further properties: paths and messages *)

Lemma split_string_dot p q :
  split_string "." (p +:+ "." +:+ q) = split_string "." p ++ split_string "." q.
Proof.
  induction p as [|c p IH]; [reflexivity|].
  rewrite append_cons. cbn [split_string]. rewrite IH.
  destruct (Ascii.eqb c "."); [reflexivity|].
  pose proof (split_string_nonempty "." p) as Hp.
  by destruct (split_string "." p).
Qed.

Lemma every_property_app before after root :
  every_property (before ++ after) root true =
  match every_property before root true with
  | Normal (v, true) => every_property after v true
  | other => other
  end.
Proof.
  revert root. induction before as [|segment before IH]; intros root; [reflexivity|].
  cbn [app]. rewrite !every_property_cons.
  destruct (get_property root segment) as [x|]; [|reflexivity].
  destruct (is_nullish x); [reflexivity|apply IH].
Qed.

(** X13. Paths compose at the dots: when path p is found with value v,
    requiring p.q of the object is requiring q of v; and when p is not
    found, no path p.q is, whatever q and the invalid values. *)
Theorem paths_compose object p q invalid :
  (forall v,
     resolves_to object (split_string "." p) v ->
     doesObjectHaveProperty object (JsString (p +:+ "." +:+ q)) invalid =
     doesObjectHaveProperty v (JsString q) invalid) /\
  (doesObjectHaveProperty object (JsString p) None = Normal false ->
   doesObjectHaveProperty object (JsString (p +:+ "." +:+ q)) invalid = Normal false).
Proof.
  rewrite !doesObjectHaveProperty_eq, split_string_dot, every_property_app. split.
  - intros v Hv. by rewrite (resolves_to_every_property _ _ _ Hv).
  - destruct (every_property (split_string "." p) object true) as [[x []]|]; try done.
Qed.

Lemma forEach_required_extends len idx elements errorMessage :
  exists suffix,
    forEach_required len idx elements errorMessage = errorMessage +:+ suffix.
Proof.
  revert idx errorMessage.
  induction elements as [|element rest IH]; intros idx errorMessage.
  { exists "". cbn. induction errorMessage as [|c m IHm]; [reflexivity|].
    by rewrite append_cons, <- IHm. }
  cbn [forEach_required].
  destruct (1 <? len)%nat, (2 <? len)%nat, (2 <=? len)%nat, (idx =? len - 1)%nat;
    cbn [andb negb];
    match goal with
    | |- context [forEach_required len (S idx) rest ?m] =>
        destruct (IH (S idx) m) as [suffix ->]
    end;
    rewrite ?append_assoc; eauto.
Qed.

Lemma trim_end_keeps s u :
  ends_in_non_space s = true -> trim_end (s +:+ u) = s +:+ trim_end u.
Proof.
  induction s as [|c s IH]; [discriminate|].
  destruct s as [|c' s].
  - cbn [ends_in_non_space]. intros Hc%negb_true_iff.
    change ((String c "") +:+ u) with (String c u).
    rewrite trim_end_cons, Hc. by destruct (trim_end u).
  - intros Hs. rewrite append_cons, trim_end_cons, (IH Hs). by rewrite append_cons.
Qed.

(** X14. Whatever the candidates (none, empty strings, white space), the
    default message begins with "Object must contain a valid value for". *)
Theorem default_message_prefix elements :
  exists rest,
    default_error_message elements = "Object must contain a valid value for" +:+ rest.
Proof.
  unfold default_error_message, trim.
  destruct (forEach_required_extends (length elements) 0 elements
              "Object must contain a valid value for ") as [suffix ->].
  rewrite trim_start_message.
  change ("Object must contain a valid value for " +:+ suffix)
    with ("Object must contain a valid value for" +:+ " " +:+ suffix).
  rewrite trim_end_keeps by reflexivity. eauto.
Qed.

Lemma resolves_to_not_nullish root segments v :
  resolves_to root segments v -> is_nullish v = false.
Proof. by induction 1. Qed.

Lemma same_value_zero_nullish n v :
  is_nullish n = true -> is_nullish v = false -> same_value_zero n v = false.
Proof. destruct n; try discriminate; by destruct v. Qed.

(** X15. undefined and null are invalid by default: listing either among the
    invalid values changes nothing, for any object and any candidate. *)
Theorem nullish_invalid_value_is_redundant object candidate n values :
  is_nullish n = true ->
  doesObjectHaveProperty object candidate (Some (n :: values)) =
  doesObjectHaveProperty object candidate (Some values).
Proof.
  intros Hn. destruct candidate; try reflexivity.
  rewrite !doesObjectHaveProperty_eq.
  destruct (every_property (split_string "." s) object true) as [[v found]|] eqn:Hwalk;
    [|reflexivity].
  destruct found; [|reflexivity].
  apply every_property_resolves_to in Hwalk; [|apply split_string_nonempty].
  cbn [includes existsb andb].
  by rewrite (same_value_zero_nullish n v Hn (resolves_to_not_nullish _ _ _ Hwalk)).
Qed.

End Properties.

(** ** Closed runs *)


(** C4, counterexample: on the null object no age resolves, and yet the
    descriptor {required:'age', invalidValues:[NaN]} does not fail:
    validate raises a TypeError. *)
Lemma null_object_raises_for_age :
  (forall age,
     ~ resolves_to (runtime := own_properties_runtime) JsNull (split_string "." "age") age) /\
  validate (runtime := own_properties_runtime) JsNull [0] false
    {| descriptors :=
         [ {| required := Some (JsString "age");
              invalidValues := Some [NaN];
              error := None |} ];
       next_id := 1 |} =
  Raises TypeError
    {| descriptors :=
         [ {| required := Some (JsArray 1 [JsString "age"]);
              invalidValues := Some [NaN];
              error := None |} ];
       next_id := 2 |}.
Proof.
  split; [|reflexivity].
  intros age Hage.
  pose proof (resolves_to_every_property (runtime := own_properties_runtime) _ _ _ Hage true)
    as Hwalk.
  discriminate Hwalk.
Qed.

(** C5, counterexample: on the null object and the list [{required:[]},
    {required:'a'}] the lazy run returns after the first descriptor, which
    fails without a property being read, while the eager run goes on to the
    second one and raises: there is no eager result to compare with. *)
Lemma lazy_returns_where_eager_raises :
  validate (runtime := own_properties_runtime) JsNull [0; 1] true
    {| descriptors := [descriptor (JsArray 1 []); descriptor (JsString "a")];
       next_id := 2 |} =
  Returns
    {| valid := false;
       errors := [message_object 2 "Object must contain a valid value for"] |}
    {| descriptors := [descriptor (JsArray 1 []); descriptor (JsString "a")];
       next_id := 3 |} /\
  validate (runtime := own_properties_runtime) JsNull [0; 1] false
    {| descriptors := [descriptor (JsArray 1 []); descriptor (JsString "a")];
       next_id := 2 |} =
  Raises TypeError
    {| descriptors := [descriptor (JsArray 1 []); descriptor (JsArray 3 [JsString "a"])];
       next_id := 4 |}.
Proof. split; reflexivity. Qed.


(** C3, at the failing input: the descriptor {required:'notThere', error:''}
    fails on the empty object, and what validate appends is the generated
    message, not the supplied error. *)
Lemma empty_string_error_is_replaced :
  validate (runtime := own_properties_runtime) empty_object [0] false
    {| descriptors :=
         [ {| required := Some (JsString "notThere");
              invalidValues := None;
              error := Some (JsString "") |} ];
       next_id := 1 |} =
  Returns
    {| valid := false;
       errors := [message_object 2 "Object must contain a valid value for notThere"] |}
    {| descriptors :=
         [ {| required := Some (JsArray 1 [JsString "notThere"]);
              invalidValues := None;
              error := Some (JsString "") |} ];
       next_id := 3 |}.
Proof. reflexivity. Qed.

(** C7, counterexample: the single path 'a ' ends in a space, and the
    message synthesized for it ends in 'a'. *)
Lemma trailing_space_is_trimmed :
  validate (runtime := own_properties_runtime) empty_object [0] false
    {| descriptors := [descriptor (JsArray 1 [JsString "a "])]; next_id := 2 |} =
  Returns
    {| valid := false;
       errors := [message_object 2 "Object must contain a valid value for a"] |}
    {| descriptors := [descriptor (JsArray 1 [JsString "a "])]; next_id := 3 |} /\
  "Object must contain a valid value for " +:+ joined_paths ["a "] <>
  "Object must contain a valid value for a".
Proof. split; [reflexivity|discriminate]. Qed.

(** C8, counterexample: in lazy mode the iteration stops at the failing
    {required:'a'}, and the descriptor {required:'b'} after it keeps its
    string. *)
Lemma lazy_leaves_later_descriptors :
  validate (runtime := own_properties_runtime) empty_object [0; 1] true
    {| descriptors := [descriptor (JsString "a"); descriptor (JsString "b")];
       next_id := 1 |} =
  Returns
    {| valid := false;
       errors := [message_object 2 "Object must contain a valid value for a"] |}
    {| descriptors := [descriptor (JsArray 1 [JsString "a"]); descriptor (JsString "b")];
       next_id := 3 |}.
Proof. reflexivity. Qed.

(** C9, counterexample: in lazy mode the iteration stops at the failing
    {required:'a'}; the descriptor without a required field after it is
    never looked at, and validate returns. *)
Lemma lazy_skips_absent_required :
  validate (runtime := own_properties_runtime) empty_object [0; 1] true
    {| descriptors :=
         [ descriptor (JsString "a");
           {| required := None; invalidValues := None; error := None |} ];
       next_id := 1 |} =
  Returns
    {| valid := false;
       errors := [message_object 2 "Object must contain a valid value for a"] |}
    {| descriptors :=
         [ descriptor (JsArray 1 [JsString "a"]);
           {| required := None; invalidValues := None; error := None |} ];
       next_id := 3 |}.
Proof. reflexivity. Qed.

(** ** The test suite *)

Example test_passes_validation :
  exists h',
    validate (runtime := own_properties_runtime) obj [0; 1; 2; 3; 4] false (fixture_heap []) =
    Returns {| valid := true; errors := [] |} h'.
Proof. by eexists. Qed.

Example test_custom_error :
  exists h',
    validate (runtime := own_properties_runtime) obj [0; 1; 2; 3; 4; 5] false
      (fixture_heap
         [ {| required := Some (JsString "notThere");
              invalidValues := None;
              error := Some (JsString "Missing notThere property") |} ]) =
    Returns {| valid := false; errors := [JsString "Missing notThere property"] |} h'.
Proof. by eexists. Qed.

Example test_invalid_value :
  exists errors h',
    validate (runtime := own_properties_runtime) obj [0; 1; 2; 3; 4; 5] false
      (fixture_heap
         [ {| required := Some (JsString "a.g");
              invalidValues := Some [JsString ""];
              error := None |} ]) =
    Returns {| valid := false; errors := errors |} h'.
Proof. by eexists _, _. Qed.

Example test_one_of_two_is_valid :
  exists h',
    validate (runtime := own_properties_runtime) obj [0; 1; 2; 3; 4; 5] false
      (fixture_heap [descriptor (JsArray 9 [JsString "a"; JsString "a.h"])]) =
    Returns {| valid := true; errors := [] |} h'.
Proof. by eexists. Qed.

Example test_more_than_two_invalid :
  exists h',
    validate (runtime := own_properties_runtime) obj [0; 1; 2; 3; 4; 5] false
      (fixture_heap
         [descriptor (JsArray 9 [JsString "notThere"; JsString "alsoNotThere"; JsString "a.h"])]) =
    Returns
      {| valid := false;
         errors :=
           [message_object 15
              "Object must contain a valid value for notThere, alsoNotThere, or a.h"] |}
      h'.
Proof. by eexists. Qed.

Example test_lazy_stops :
  exists h',
    validate (runtime := own_properties_runtime) obj [0; 1; 2; 3; 4; 5; 6] true
      (fixture_heap [descriptor (JsString "notThere"); descriptor (JsString "a.h")]) =
    Returns
      {| valid := false;
         errors := [message_object 16 "Object must contain a valid value for notThere"] |}
      h'.
Proof. by eexists. Qed.

Example test_eager_goes_on :
  exists h',
    validate (runtime := own_properties_runtime) obj [0; 1; 2; 3; 4; 5; 6] false
      (fixture_heap [descriptor (JsString "notThere"); descriptor (JsString "a.h")]) =
    Returns
      {| valid := false;
         errors :=
           [ message_object 16 "Object must contain a valid value for notThere";
             message_object 18 "Object must contain a valid value for a.h" ] |}
      h'.
Proof. by eexists. Qed.

(** ** The theorems at concrete inputs *)


Lemma readme_scenario_witness :
  builtin_property (Runtime := own_properties_runtime) toValidate "notThere" = JsUndefined /\
  builtin_property (Runtime := own_properties_runtime) toValidate "alsoNotThere" = JsUndefined /\
  exists h',
    validate (runtime := own_properties_runtime) toValidate [0; 1; 2; 3; 4] true readme_heap =
    Returns
      {| valid := false;
         errors := [ message_object 3 "spouse is required and must contain an age" ] |}
      h'.
Proof.
  split; [reflexivity|]. split; [reflexivity|].
  exact (proj2 (@readme_scenario own_properties_runtime eq_refl eq_refl)).
Defined.


Lemma NaN_is_matched_by_includes_witness :
  NaN ∈ [NaN] /\
  resolves_to (runtime := own_properties_runtime) toValidate (split_string "." "spouse.age") NaN /\
  doesObjectHaveProperty (runtime := own_properties_runtime) toValidate (JsString "spouse.age")
    (Some [NaN]) = Normal false.
Proof.
  assert (resolves_to (runtime := own_properties_runtime) toValidate
            (split_string "." "spouse.age") NaN) as Hresolves.
  { eapply resolves_step; [reflexivity|reflexivity|].
    apply resolves_last; reflexivity. }
  split; [apply list_elem_of_here|]. split; [exact Hresolves|].
  exact (proj1 (@NaN_is_matched_by_includes own_properties_runtime) toValidate "spouse.age"
           [NaN] (list_elem_of_here _ _) Hresolves).
Defined.

Lemma lazy_mode_invariant_witness :
  exists rl hl r h',
    validate (runtime := own_properties_runtime) toValidate [0; 1; 2; 3; 4] true readme_heap =
    Returns rl hl /\
    validate (runtime := own_properties_runtime) toValidate [0; 1; 2; 3; 4] false readme_heap =
    Returns r h' /\
    length (errors rl) <= 1 /\
    errors rl = take 1 (errors r) /\
    valid rl = valid r.
Proof.
  destruct (proj1 (@lazy_mode_invariant own_properties_runtime toValidate [0; 1; 2; 3; 4]
                     readme_heap) _ _ eq_refl)
    as (Hlength & _ & Heager).
  destruct (Heager _ _ eq_refl) as (Hfirst & Hflag & _).
  eexists _, _, _, _. split; [reflexivity|]. split; [reflexivity|].
  split_and!; assumption.
Defined.


Lemma default_message_format_witness :
  last ["a"; "b"; "c"] = Some "c" /\
  ends_in_non_space "c" = true /\
  validate (runtime := own_properties_runtime) empty_object [0] false
    {| descriptors := [descriptor (JsArray 1 [JsString "a"; JsString "b"; JsString "c"])];
       next_id := 2 |} =
  Returns
    {| valid := false;
       errors :=
         [message_object 2
            ("Object must contain a valid value for " +:+ joined_paths ["a"; "b"; "c"])] |}
    {| descriptors := [descriptor (JsArray 1 [JsString "a"; JsString "b"; JsString "c"])];
       next_id := 3 |}.
Proof.
  split; [reflexivity|]. split; [reflexivity|].
  exact (proj1 (@default_message_format own_properties_runtime empty_object false 0
                  {| descriptors :=
                       [descriptor (JsArray 1 [JsString "a"; JsString "b"; JsString "c"])];
                     next_id := 2 |}
                  (descriptor (JsArray 1 [JsString "a"; JsString "b"; JsString "c"]))
                  1 ["a"; "b"; "c"] "c" (JsBoolean false)
                  eq_refl eq_refl eq_refl eq_refl eq_refl eq_refl eq_refl)).
Defined.

Lemma normalization_in_place_witness :
  exists result h',
    validate (runtime := own_properties_runtime) toValidate [0; 1; 2; 3; 4] false readme_heap =
    Returns result h' /\
    exists id,
      descriptors h' !! 1 =
      Some {| required := Some (JsArray id [JsString "age"]);
              invalidValues := Some [NaN];
              error := None |}.
Proof.
  eexists _, _. split; [reflexivity|].
  exact (proj1 (@normalization_in_place own_properties_runtime toValidate [0; 1; 2; 3; 4]
                  false readme_heap _ _ eq_refl)
           [0] 1 [2; 3; 4]
           {| required := Some (JsString "age"); invalidValues := Some [NaN]; error := None |}
           "age" eq_refl (or_introl eq_refl) eq_refl eq_refl).
Defined.

Lemma absent_required_raises_witness :
  required {| required := None; invalidValues := None; error := None |} = None /\
  exists h',
    validate (runtime := own_properties_runtime) empty_object ([0] ++ 1 :: []) false
      {| descriptors :=
           [ descriptor (JsString "a");
             {| required := None; invalidValues := None; error := None |} ];
         next_id := 1 |} = Raises TypeError h'.
Proof.
  split; [reflexivity|].
  exact (@absent_required_raises own_properties_runtime empty_object false [0] 1 []
           {| descriptors :=
                [ descriptor (JsString "a");
                  {| required := None; invalidValues := None; error := None |} ];
              next_id := 1 |}
           {| required := None; invalidValues := None; error := None |}
           eq_refl eq_refl (or_introl eq_refl)).
Defined.

Lemma empty_required_list_witness :
  required (descriptor (JsArray 1 [])) = Some (JsArray 1 []) /\
  doesObjectHaveAny (runtime := own_properties_runtime) JsNull (descriptor (JsArray 1 [])) =
  Normal JsNull /\
  exists e h',
    validate (runtime := own_properties_runtime) JsNull [0] true
      {| descriptors := [descriptor (JsArray 1 [])]; next_id := 2 |} =
    Returns {| valid := false; errors := [e] |} h' /\
    (error (descriptor (JsArray 1 [])) = None ->
     e = message_object 2 "Object must contain a valid value for").
Proof.
  split; [reflexivity|].
  exact (@empty_required_list own_properties_runtime JsNull true 0
           {| descriptors := [descriptor (JsArray 1 [])]; next_id := 2 |}
           (descriptor (JsArray 1 [])) 1 eq_refl eq_refl).
Defined.

(** ** The further properties at concrete inputs *)

Lemma valid_iff_all_pass_witness :
  exists r h',
    validate (runtime := own_properties_runtime) obj [0; 1; 2; 3; 4] true (fixture_heap []) =
    Returns r h' /\
    (valid r = true <->
     Forall (passes (runtime := own_properties_runtime) obj (fixture_heap []))
       [0; 1; 2; 3; 4]).
Proof.
  eexists _, _. split; [reflexivity|].
  exact (valid_iff_all_pass (runtime := own_properties_runtime) obj [0; 1; 2; 3; 4] true
           (fixture_heap []) _ _ eq_refl).
Defined.

Lemma valid_iff_no_errors_witness :
  exists r h',
    validate (runtime := own_properties_runtime) toValidate [0; 1; 2; 3; 4] false readme_heap =
    Returns r h' /\
    (valid r = true <-> errors r = []).
Proof.
  eexists _, _. split; [reflexivity|].
  exact (valid_iff_no_errors (runtime := own_properties_runtime) toValidate [0; 1; 2; 3; 4]
           false readme_heap _ _ eq_refl).
Defined.

Lemma errors_are_the_failures_in_order_witness :
  exists r h',
    validate (runtime := own_properties_runtime) toValidate [0; 1; 2; 3; 4] false readme_heap =
    Returns r h' /\
    Forall2 (payload_of (runtime := own_properties_runtime) readme_heap) [3; 4] (errors r).
Proof.
  eexists _, _. split; [reflexivity|].
  exact (errors_are_the_failures_in_order (runtime := own_properties_runtime) toValidate
           [0; 1; 2; 3; 4] false readme_heap _ _ eq_refl).
Defined.

Lemma eager_validation_composes_witness :
  exists r1 h1 r2 h2,
    validate (runtime := own_properties_runtime) toValidate [0; 1; 2; 3] false readme_heap =
    Returns r1 h1 /\
    validate (runtime := own_properties_runtime) toValidate [4] false h1 = Returns r2 h2 /\
    validate (runtime := own_properties_runtime) toValidate ([0; 1; 2; 3] ++ [4]) false
      readme_heap =
    Returns {| valid := valid r1 && valid r2; errors := errors r1 ++ errors r2 |} h2.
Proof.
  eexists _, _, _, _. split; [reflexivity|]. split; [reflexivity|].
  exact (proj1 (eager_validation_composes (runtime := own_properties_runtime) toValidate
                  [0; 1; 2; 3] [4] readme_heap) _ _ _ _ eq_refl eq_refl).
Defined.

Lemma lazy_ignores_what_follows_a_failure_witness :
  exists r h',
    validate (runtime := own_properties_runtime) toValidate [0; 1; 2; 3] true readme_heap =
    Returns r h' /\
    validate (runtime := own_properties_runtime) toValidate ([0; 1; 2; 3] ++ [4; 99]) true
      readme_heap =
    if valid r then validate (runtime := own_properties_runtime) toValidate [4; 99] true h'
    else Returns r h'.
Proof.
  eexists _, _. split; [reflexivity|].
  exact (lazy_ignores_what_follows_a_failure (runtime := own_properties_runtime) toValidate
           [0; 1; 2; 3] [4; 99] readme_heap _ _ eq_refl).
Defined.

Lemma validate_frame_witness :
  (4 ∉ [0; 1; 2; 3]) /\
  descriptors
    (outcome_heap
       (validate (runtime := own_properties_runtime) toValidate [0; 1; 2; 3] false
          readme_heap)) !! 4 =
  descriptors readme_heap !! 4.
Proof.
  assert (4 ∉ [0; 1; 2; 3]) as Hother.
  { rewrite !not_elem_of_cons. split_and!; try lia. apply not_elem_of_nil. }
  split; [exact Hother|].
  exact (proj1 (proj2 (validate_frame (runtime := own_properties_runtime) toValidate
                         [0; 1; 2; 3] false readme_heap)) 4 Hother).
Defined.

Lemma validate_respects_same_rule_witness :
  Forall2 same_rule [descriptor (JsString "a")] [descriptor (JsArray 5 [JsString "a"])] /\
  exists r h' rx hx',
    validate (runtime := own_properties_runtime) empty_object [0] false
      {| descriptors := [descriptor (JsString "a")]; next_id := 1 |} = Returns r h' /\
    validate (runtime := own_properties_runtime) empty_object [0] false
      {| descriptors := [descriptor (JsArray 5 [JsString "a"])]; next_id := 6 |} =
    Returns rx hx' /\
    valid rx = valid r /\
    Forall2 same_payload (errors r) (errors rx).
Proof.
  assert (Forall2 same_rule [descriptor (JsString "a")]
            [descriptor (JsArray 5 [JsString "a"])]) as Hheaps.
  { constructor; [|constructor]. split_and!; reflexivity. }
  split; [exact Hheaps|].
  destruct (proj1 (validate_respects_same_rule (runtime := own_properties_runtime)
                     empty_object [0] false
                     {| descriptors := [descriptor (JsString "a")]; next_id := 1 |}
                     {| descriptors := [descriptor (JsArray 5 [JsString "a"])]; next_id := 6 |}
                     Hheaps) _ _ eq_refl)
    as (rx & hx' & Hvalidate & Hflag & Hpayloads).
  eexists _, _, rx, hx'. split; [reflexivity|]. by split_and!.
Defined.

Lemma validate_twice_witness :
  exists r h' r2 h2,
    validate (runtime := own_properties_runtime) toValidate [0; 1; 2; 3; 4] false readme_heap =
    Returns r h' /\
    validate (runtime := own_properties_runtime) toValidate [0; 1; 2; 3; 4] false h' =
    Returns r2 h2 /\
    valid r2 = valid r /\
    Forall2 same_payload (errors r) (errors r2) /\
    descriptors h2 = descriptors h'.
Proof.
  destruct (validate_twice (runtime := own_properties_runtime) toValidate [0; 1; 2; 3; 4]
              false readme_heap _ _ eq_refl)
    as (r2 & h2 & Hagain & Hflag & Hpayloads & Hsettled).
  eexists _, _, r2, h2. split; [reflexivity|]. by split_and!.
Defined.

Lemma nullish_object_raises_witness :
  is_nullish JsUndefined = true /\
  candidates (descriptor (JsString "a")) <> Normal [] /\
  exists h',
    validate (runtime := own_properties_runtime) JsUndefined ([] ++ 0 :: [1]) true
      {| descriptors := [descriptor (JsString "a"); descriptor (JsString "b")];
         next_id := 1 |} = Raises TypeError h'.
Proof.
  assert (candidates (descriptor (JsString "a")) <> Normal []) as Hcandidates
    by discriminate.
  split; [reflexivity|]. split; [exact Hcandidates|].
  exact (nullish_object_raises (runtime := own_properties_runtime) JsUndefined true [] 0 [1]
           {| descriptors := [descriptor (JsString "a"); descriptor (JsString "b")];
              next_id := 1 |}
           (descriptor (JsString "a")) eq_refl eq_refl Hcandidates
           (or_intror (Forall_nil_2 _))).
Defined.


Lemma fewer_invalid_values_judge_valid_witness :
  fewer_invalid None (Some [JsString ""]) /\
  doesObjectHaveAny (runtime := own_properties_runtime) toValidate
    {| required := Some (JsArray 4 [JsString "spouse.name"]);
       invalidValues := None; error := None |} = Normal (JsBoolean true).
Proof.
  split; [exact I|].
  exact (fewer_invalid_values_judge_valid (runtime := own_properties_runtime) toValidate
           (Some (JsArray 4 [JsString "spouse.name"])) None (Some [JsString ""]) None None
           (JsBoolean true) I eq_refl eq_refl).
Defined.


Lemma paths_compose_witness :
  resolves_to (runtime := own_properties_runtime) toValidate (split_string "." "spouse")
    (JsObject 1 [("name", JsString "Jane"); ("age", NaN)]) /\
  doesObjectHaveProperty (runtime := own_properties_runtime) toValidate
    (JsString ("spouse" +:+ "." +:+ "age")) (Some [NaN]) =
  doesObjectHaveProperty (runtime := own_properties_runtime)
    (JsObject 1 [("name", JsString "Jane"); ("age", NaN)]) (JsString "age") (Some [NaN]).
Proof.
  assert (resolves_to (runtime := own_properties_runtime) toValidate
            (split_string "." "spouse")
            (JsObject 1 [("name", JsString "Jane"); ("age", NaN)])) as Hspouse
    by (apply resolves_last; reflexivity).
  split; [exact Hspouse|].
  exact (proj1 (paths_compose (runtime := own_properties_runtime) toValidate "spouse" "age"
                  (Some [NaN])) _ Hspouse).
Defined.

Lemma nullish_invalid_value_is_redundant_witness :
  is_nullish JsNull = true /\
  doesObjectHaveProperty (runtime := own_properties_runtime) obj (JsString "a.h")
    (Some [JsNull; JsString ""]) =
  doesObjectHaveProperty (runtime := own_properties_runtime) obj (JsString "a.h")
    (Some [JsString ""]).
Proof.
  split; [reflexivity|].
  exact (nullish_invalid_value_is_redundant (runtime := own_properties_runtime) obj
           (JsString "a.h") JsNull [JsString ""] eq_refl).
Defined.
